(** * Entity_Linker: linking names and text to entities of a Solr index

    A shallow embedding of [src/entity_linking/entity_linker.py] and the
    properties of its three methods [query_entities], [dictionary_matcher]
    and [entities].

    Conventions of the embedding.
    - A Python [str] is a [string]; every character is one code point below
      256, and [lower] is Python's [str.lower] on that range.  The body of
      a request is the text as it is: this is [text.encode('utf-8')] for
      text of characters below 128 ([is_ascii_text], where [utf8_encode] is
      the identity); a theorem that states the body of a request is about
      such text.
    - A value of a field of an index record is what the JSON writer of Solr
      gives: a string, a number, a boolean or null ([scalar]), or an array
      of these ([value]).  An [int] is a [Z]; a [float] is the rational it
      stands for.
    - A Python [dict] whose keys are fixed field names (an index record, a
      query, a resolved entity, the parameters of a request) is a
      [gmap string _]; a [dict] that is keyed by caller data and is iterated
      or returned (the [queries], the result maps) is an insertion-ordered
      association list with Python's key equality ([dict]).
    - The interpreter's state is a [world]: the heap of result maps (so that
      the mutable default argument of [dictionary_matcher] and the aliasing
      of the accumulator are visible), the requests issued so far and the
      lines written to [sys.stderr].  The index is an oracle [server] that
      answers a request given the requests before it; a reply is a failure
      of the transport, a body that is no JSON, JSON without records, or
      the list of records.
    - An exception is a value of [exn]; a computation that can raise
      returns [exn + A].
    - The parameters [language] and [normalized_label_languages] are never
      read by the code and are left out, as is the printing done under
      [verbose], which only writes to standard output. *)

From Stdlib Require Import Ascii QArith Qcanon.
From stdpp Require Import gmap strings list fin_maps pretty numbers.

Open Scope string_scope.
Open Scope Z_scope.
Open Scope list_scope.

(** ** Python values *)

(** What the JSON writer of the index puts into a field: a string, a number,
    a boolean (or null), or an array of these. *)
Inductive scalar : Type :=
| SNone
| SBool (b : bool)
| SInt (n : Z)
| SFloat (x : Qc)
| SStr (s : string).

Inductive value : Type :=
| Atom (a : scalar)
| Arr (l : list scalar).

Inductive exn : Type :=
| RequestException (msg : string)   (* raised by requests.get / requests.post *)
| JSONDecodeError (msg : string)    (* raised by r.json() *)
| KeyError (key : scalar)
| IndexError (msg : string)
| TypeError (msg : string)
| AttributeError (msg : string).

Definition result (A : Type) : Type := exn + A.

Definition dquote : string := String "034"%char EmptyString.
Definition squote : string := "'".

(** [bool(v)], as used by [if not label] and [if limit]. *)
Definition truthy (v : value) : bool :=
  match v with
  | Atom SNone => false
  | Atom (SBool b) => b
  | Atom (SInt n) => negb (n =? 0)
  | Atom (SFloat x) => negb (bool_decide (x = Q2Qc 0))
  | Atom (SStr s) => negb (bool_decide (s = ""))
  | Arr l => negb (bool_decide (l = []))
  end.

Definition type_name (a : scalar) : string :=
  match a with
  | SNone => "NoneType"
  | SBool _ => "bool"
  | SInt _ => "int"
  | SFloat _ => "float"
  | SStr _ => "str"
  end.

(** [v[0]] *)
Definition subscript0 (v : value) : result value :=
  match v with
  | Arr (x :: _) => inr (Atom x)
  | Arr [] => inl (IndexError "list index out of range")
  | Atom (SStr (String c _)) => inr (Atom (SStr (String c "")))
  | Atom (SStr EmptyString) => inl (IndexError "string index out of range")
  | Atom a => inl (TypeError (squote +:+ type_name a +:+ "' object is not subscriptable"))
  end.

(** [str.lower()] on code points below 256: the letters A-Z and the
    upper-case letters of Latin-1 (192-214, 216-222) move up by 32. *)
Definition lower_char (c : ascii) : ascii :=
  let n := N_of_ascii c in
  if ((65 <=? n) && (n <=? 90) || (192 <=? n) && (n <=? 214)
      || (216 <=? n) && (n <=? 222))%N
  then ascii_of_N (n + 32) else c.

Fixpoint lower (s : string) : string :=
  match s with
  | EmptyString => EmptyString
  | String c s' => String (lower_char c) (lower s')
  end.

(** Python's equality on hashable values identifies the numbers across
    [bool], [int] and [float]; [hkey] is the class of a key. *)
Inductive hkey : Type :=
| KNone
| KNum (x : Qc)
| KStr (s : string).

Global Instance hkey_eq_dec : EqDecision hkey.
Proof. solve_decision. Defined.

Definition hkey_of (a : scalar) : hkey :=
  match a with
  | SNone => KNone
  | SBool b => KNum (Q2Qc (inject_Z (if b then 1 else 0)))
  | SInt n => KNum (Q2Qc (inject_Z n))
  | SFloat x => KNum x
  | SStr s => KStr s
  end.

Definition py_eqb (a b : scalar) : bool := bool_decide (hkey_of a = hkey_of b).

(** ** Insertion-ordered dictionaries *)

Definition dict (V : Type) : Type := list (scalar * V).

Fixpoint dict_get {V} (k : scalar) (d : dict V) : option V :=
  match d with
  | [] => None
  | (k', v) :: d' => if py_eqb k' k then Some v else dict_get k d'
  end.

(** [d[k] = v]: an equal key keeps its place (and the key object first
    inserted), a new key goes to the end. *)
Fixpoint dict_set {V} (k : scalar) (v : V) (d : dict V) : dict V :=
  match d with
  | [] => [(k, v)]
  | (k', v') :: d' =>
      if py_eqb k' k then (k', v) :: d' else (k', v') :: dict_set k v d'
  end.

Definition dict_keys {V} (d : dict V) : list scalar := d.*1.

(** No two keys of a dictionary are equal. *)
Definition dict_wf {V} (d : dict V) : Prop := NoDup (hkey_of <$> dict_keys d).

(** The writes [d[k] = v] of a list of pairs, oldest first. *)
Definition dict_update {V} (writes : list (scalar * V)) (d : dict V) : dict V :=
  fold_left (λ d kv, dict_set kv.1 kv.2 d) writes d.

(** The value written last under a key equal to [k]. *)
Definition last_write {V} (k : scalar) (writes : list (scalar * V)) : option V :=
  snd <$> list.last (List.filter (λ kv, py_eqb kv.1 k) writes).

(** ** Records of the index, requests and replies *)

(** A record of the index, a query [{'query': ..., 'limit': ...}] and a
    resolved entity are dictionaries over field names. *)
Abbreviation doc := (gmap string value).
Abbreviation query := (gmap string value).
Abbreviation entity := (gmap string value).

(** The value [{'result': [...]}] of a result map. *)
Abbreviation entry := (gmap string (list entity)).

Inductive request : Type :=
| Get (url : string) (params : gmap string value) (headers : gmap string string)
| Post (url : string) (data : string) (params : gmap string value).

Inductive reply : Type :=
| Transport_error (msg : string)   (* the request itself raises *)
| Decode_error (msg : string)      (* the body is not JSON: r.json() raises *)
| Solr_error                       (* JSON without a 'response' member *)
| Solr_docs (docs : list doc).     (* r.json()['response']['docs'] *)


(** ** The class and its attributes *)

Record Entity_Linker : Type := {
  solr : string;
  solr_core : string;
  fields : list string
}.

Definition Entity_Linker_class : Entity_Linker := {|
  solr := "http://localhost:8983/solr/";
  solr_core := "opensemanticsearch-entities";
  fields := ["id"; "score"; "type_ss"; "label_ss"; "label_txt";
             "preferred_label_s"; "preferred_label_txt";
             "skos_prefLabel_ss"; "skos_prefLabel_txt";
             "skos_altLabel_ss"; "skos_altLabel_txt";
             "skos_hiddenLabel_ss"; "skos_hiddenLabel_txt"]
|}.

Definition limit_default : Z := 10000.
Definition tagger_default : string := "all_labels_ss_tag".
Definition taggers_default : list string := ["all_labels_ss_tag"].

(** ** The interpreter's state *)

Definition loc : Type := nat.
Definition store : Type := dict entry.

Record world : Type := World {
  heap : list store;        (* the result maps allocated so far *)
  sent : list request;      (* requests issued to the index, oldest first *)
  stderr : list string      (* what was written to sys.stderr *)
}.

(** The accumulator [normalized_entities = {}] in the signature of
    [dictionary_matcher] is one object, made when the class is defined. *)
Definition dm_default : loc := 0%nat.

Definition world0 : world := {| heap := [[]]; sent := []; stderr := [] |}.

Definition M (A : Type) : Type := world → world * result A.

Definition ret {A} (a : A) : M A := λ w, (w, inr a).
Definition raise {A} (e : exn) : M A := λ w, (w, inl e).
Definition bind {A B} (m : M A) (k : A → M B) : M B :=
  λ w, match m w with
       | (w', inr a) => k a w'
       | (w', inl e) => (w', inl e)
       end.
Definition lift {A} (r : result A) : M A := λ w, (w, r).

(** [try: m except BaseException as e: h e] *)
Definition try_except {A} (m : M A) (h : exn → M A) : M A :=
  λ w, match m w with
       | (w', inr a) => (w', inr a)
       | (w', inl e) => h e w'
       end.

Definition rbind {A B} (r : result A) (k : A → result B) : result B :=
  match r with
  | inr a => k a
  | inl e => inl e
  end.

Notation "'let*' x ':=' m 'in' k" := (bind m (λ x, k))
  (at level 10, x name, m at level 100, k at level 200, only parsing).
Notation "'let?' x ':=' r 'in' k" := (rbind r (λ x, k))
  (at level 10, x name, r at level 100, k at level 200, only parsing).

(** [for x in l: f x], stopping at the first exception. *)
Fixpoint for_each {A} (f : A → M unit) (l : list A) : M unit :=
  match l with
  | [] => ret tt
  | x :: l' => let* _ := f x in for_each f l'
  end.

(** [results = []; for x in l: results.append(f x)] where [f] has no effect
    other than raising. *)
Fixpoint collect {A B} (f : A → result B) (l : list A) : result (list B) :=
  match l with
  | [] => inr []
  | x :: l' => let? y := f x in let? ys := collect f l' in inr (y :: ys)
  end.

(** [{}] *)
Definition new_dict : M loc :=
  λ w, ({| heap := heap w ++ [[]]; sent := sent w; stderr := stderr w |},
        inr (length (heap w))).

Definition heap_get (l : loc) (h : list store) : store := default [] (h !! l).

Definition read (l : loc) : M store := λ w, (w, inr (heap_get l (heap w))).

Definition write (l : loc) (s : store) : M unit :=
  λ w, ({| heap := <[l := s]> (heap w); sent := sent w; stderr := stderr w |},
        inr tt).

(** [sys.stderr.write(line)] *)
Definition stderr_write (line : string) : M unit :=
  λ w, ({| heap := heap w; sent := sent w; stderr := stderr w ++ [line] |},
        inr tt).

(** [d[k] = {}] for the result map at [l]. *)
Definition setitem (l : loc) (k : scalar) (e : entry) : M unit :=
  let* d := read l in write l (dict_set k e d).

(** [d[k][field] = v] for the result map at [l]. *)
Definition setitem2 (l : loc) (k : scalar) (field : string) (v : list entity)
  : M unit :=
  let* d := read l in
  match dict_get k d with
  | Some e => write l (dict_set k (<[field := v]> e) d)
  | None => raise (KeyError k)
  end.

(** [rec[field]] *)
Definition getitem (rec : gmap string value) (field : string) : result value :=
  match rec !! field with
  | Some v => inr v
  | None => inl (KeyError (SStr field))
  end.

Definition newline : string := String "010"%char EmptyString.

Section Methods.

(** Python's [repr] of a float, the shortest decimal string that reads
    back as the same number, is taken as given. *)
Variable float_repr : Qc → string.

(** The index: its reply to a request, given the requests before it. *)
Variable server : list request → request → reply.

Variable self : Entity_Linker.

(** [str(a)] *)
Definition py_str (a : scalar) : string :=
  match a with
  | SNone => "None"
  | SBool true => "True"
  | SBool false => "False"
  | SInt n => pretty n
  | SFloat x => float_repr x
  | SStr s => s
  end.

(** [str(e)]; the message of a [KeyError] is the [repr] of the key. *)
Definition str_exn (e : exn) : string :=
  match e with
  | RequestException msg => msg
  | JSONDecodeError msg => msg
  | KeyError (SStr key) => squote +:+ key +:+ squote
  | KeyError key => py_str key
  | IndexError msg => msg
  | TypeError msg => msg
  | AttributeError msg => msg
  end.

(** [requests.get] and [requests.post]: the request goes out, and a
    transport failure raises. *)
Definition issue (rq : request) : M reply :=
  λ w, let r := server (sent w) rq in
       ({| heap := heap w; sent := sent w ++ [rq]; stderr := stderr w |},
        match r with
        | Transport_error msg => inl (RequestException msg)
        | _ => inr r
        end).

(** [r.json()['response']['docs']] in two steps: decoding, which the
    code does first, and the access to the records. *)
Definition json (r : reply) : result (option (list doc)) :=
  match r with
  | Transport_error msg => inl (RequestException msg)
  | Decode_error msg => inl (JSONDecodeError msg)
  | Solr_error => inr None
  | Solr_docs docs => inr (Some docs)
  end.

Definition response_docs (j : option (list doc)) : result (list doc) :=
  match j with
  | Some docs => inr docs
  | None => inl (KeyError (SStr "response"))
  end.

(** *** The label of a record (lines 89-107 and 180-198) *)

(** [if not label: if field in rec: label = rec[field][0]] *)
Definition label_from (field : string) (rec : doc) (label : value)
  : result value :=
  if truthy label then inr label
  else match rec !! field with
       | Some v => subscript0 v
       | None => inr label
       end.

Definition normalized_label (rec : doc) : result value :=
  let label :=
    match rec !! "preferred_label_s" with
    | Some v => v
    | None => Atom SNone
    end in
  let? label := label_from "skos_prefLabel_ss" rec label in
  let? label := label_from "label_ss" rec label in
  let? label := label_from "skos_altLabel_ss" rec label in
  if truthy label then inr label else getitem rec "id".

(** [types = []; if 'type_ss' in rec: types = rec['type_ss']] *)
Definition types_of (rec : doc) : value :=
  match rec !! "type_ss" with
  | Some v => v
  | None => Arr []
  end.

(** *** query_entities *)

(** [if not isinstance(values, list): values = [values]] *)
Definition as_list (values : value) : list scalar :=
  match values with
  | Arr l => l
  | Atom a => [a]
  end.

(** Lines 113-124: the two nested loops that set [match]. *)
Definition scan_values (q : string) (values : list scalar) (m : bool) : bool :=
  fold_left
    (λ m v, if bool_decide (lower (py_str v) = lower q) then true else m)
    values m.

Definition scan_fields (q : string) (rec : doc) : bool :=
  fold_left
    (λ m field,
       match rec !! field with
       | Some values =>
           if bool_decide (field = "score") then m
           else scan_values q (as_list values) m
       | None => m
       end)
    (fields self) false.

(** Lines 89-132: one record of the response. *)
Definition query_result (q : string) (search_result : doc) : result entity :=
  let? label := normalized_label search_result in
  let types := types_of search_result in
  let match_ := scan_fields q search_result in
  let? id := getitem search_result "id" in
  let? score := getitem search_result "score" in
  inr (<["type" := types]>
       (<["match" := Atom (SBool match_)]>
        (<["score" := score]>
         (<["name" := label]>
          (<["id" := id]> ∅))))).

Definition qf : list scalar :=
  SStr <$> ["label_ss"; "label_txt"; "preferred_label_s^10";
            "preferred_label_txt^5"; "skos_prefLabel_ss^10";
            "skos_prefLabel_txt^5"; "skos_altLabel_ss^2";
            "skos_altLabel_txt"; "skos_hiddenLabel_ss^2";
            "skos_hiddenLabel_txt"].

Definition type_name_of (v : value) : string :=
  match v with
  | Atom a => type_name a
  | Arr _ => "list"
  end.

(** [queries[query]['query']], which the code concatenates with quotes. *)
Definition query_string (q : query) : result string :=
  let? v := getitem q "query" in
  match v with
  | Atom (SStr s) => inr s
  | _ => inl (TypeError ("can only concatenate str (not " +:+ dquote
                         +:+ type_name_of v +:+ dquote +:+ ") to str"))
  end.

(** Lines 52-73. *)
Definition select_params (q : query) (qs : string) (limit : Z)
  : gmap string value :=
  let params : gmap string value :=
    <["q" := Atom (SStr (dquote +:+ qs +:+ dquote))]>
    (<["fl" := Arr (SStr <$> fields self)]>
     (<["qf" := Arr qf]>
      (<["defType" := Atom (SStr "edismax")]>
       (<["wt" := Atom (SStr "json")]> ∅)))) in
  match q !! "limit" with
  | Some v => <["rows" := v]> params
  | None => <["rows" := Atom (SInt limit)]> params
  end.

Definition select_headers : gmap string string :=
  {[ "content-type" := "application/json" ]}.

Definition select_request (q : query) (qs : string) (limit : Z) : request :=
  Get (solr self +:+ solr_core self +:+ "/select")
      (select_params q qs limit) select_headers.

(** The body of [for query in queries] (lines 52-136); [queries[query]]
    is the value [q] stored under the key. *)
Definition query_one (normalized_entities : loc) (limit : Z)
    (kq : scalar * query) : M unit :=
  let '(key, q) := kq in
  let* qs := lift (query_string q) in
  let* r := issue (select_request q qs limit) in
  let* search_results := lift (json r) in
  let* _ := setitem normalized_entities key ∅ in
  let* _ := setitem2 normalized_entities key "result" [] in
  let* docs := lift (response_docs search_results) in
  let* results := lift (collect (query_result qs) docs) in
  setitem2 normalized_entities key "result" results.

(** The argument [normalized_entities] of the source is rebound to a
    fresh dictionary on entry (line 46), so it is no parameter here. *)
Definition query_entities (queries : dict query) (limit : Z) : M loc :=
  let* normalized_entities := new_dict in
  let* _ := for_each (query_one normalized_entities limit) queries in
  ret normalized_entities.

(** *** dictionary_matcher *)

Definition tagger_fields (additional_result_fields : list string)
  : list string :=
  ["id"; "type_ss"; "preferred_label_s"; "skos_prefLabel_ss"; "label_ss";
   "skos_altLabel_ss"] ++ additional_result_fields.

Definition tagger_params (limit : Z) (additional_result_fields : list string)
  : gmap string value :=
  let params : gmap string value :=
    <["fl" := Atom (SStr (String.concat ","
                            (tagger_fields additional_result_fields)))]>
    (<["overlaps" := Atom (SStr "NO_SUB")]>
     (<["matchText" := Atom (SStr "true")]>
      (<["wt" := Atom (SStr "json")]> ∅))) in
  if truthy (Atom (SInt limit))
  then <["tagsLimit" := Atom (SStr (pretty limit))]> params
  else params.

(** [text.encode('utf-8')], which raises on [None]; the bytes are those of
    the text when its characters are below 128. *)
Definition encode (text : option string) : result string :=
  match text with
  | Some s => inr s
  | None => inl (AttributeError "'NoneType' object has no attribute 'encode'")
  end.

Definition tagger_request (text : string) (limit : Z) (tagger : string)
    (additional_result_fields : list string) : request :=
  Post (solr self +:+ solr_core self +:+ "/" +:+ tagger) text
       (tagger_params limit additional_result_fields).

(** Lines 211-214: the requested fields the record has are copied. *)
Definition copy_fields (additional_result_fields : list string)
    (rec : doc) (res : entity) : entity :=
  fold_left
    (λ res field,
       match rec !! field with
       | Some v => <[field := v]> res
       | None => res
       end)
    additional_result_fields res.

(** Lines 180-214: the resolved entity of one tagged record. *)
Definition tagged_result (additional_result_fields : list string)
    (rec : doc) : result entity :=
  let? label := normalized_label rec in
  let types := types_of rec in
  let? id := getitem rec "id" in
  let res : entity :=
    <["type" := types]>
    (<["match" := Atom (SBool true)]>
     (<["name" := label]>
      (<["id" := id]> ∅))) in
  inr (copy_fields additional_result_fields rec res).

(** A key of a dictionary has to be hashable. *)
Definition hashable (v : value) : result scalar :=
  match v with
  | Atom a => inr a
  | Arr _ => inl (TypeError "unhashable type: 'list'")
  end.

(** The body of [for entity in matches['response']['docs']]. *)
Definition tag_one (normalized_entities : loc)
    (additional_result_fields : list string) (rec : doc) : M unit :=
  let* res := lift (tagged_result additional_result_fields rec) in
  let* id := lift (let? v := getitem rec "id" in hashable v) in
  let* _ := setitem normalized_entities id ∅ in
  setitem2 normalized_entities id "result" [res].

(** [normalized_entities = None] stands for the omitted argument, which
    is the one default dictionary of the function. *)
Definition dictionary_matcher (text : option string) (limit : Z)
    (tagger : string) (normalized_entities : option loc)
    (additional_result_fields : list string) : M loc :=
  let normalized_entities := default dm_default normalized_entities in
  let* data := lift (encode text) in
  let* r := issue (tagger_request data limit tagger
                     additional_result_fields) in
  let* matches := lift (json r) in
  let* docs := lift (response_docs matches) in
  let* _ := for_each (tag_one normalized_entities additional_result_fields)
              docs in
  ret normalized_entities.

(** *** entities *)

Definition tagger_failure (tagger : string) (e : exn) : string :=
  "Exception using Solr Text Tagger " +:+ tagger +:+ ": " +:+ str_exn e
  +:+ newline.

(** Lines 236-240. *)
Fixpoint run_taggers (text : option string) (limit : Z)
    (additional_result_fields : list string)
    (normalized_entities : loc) (taggers : list string) : M loc :=
  match taggers with
  | [] => ret normalized_entities
  | tagger :: taggers' =>
      let* normalized_entities :=
        try_except
          (dictionary_matcher text limit tagger (Some normalized_entities)
             additional_result_fields)
          (λ e, let* _ := stderr_write (tagger_failure tagger e) in
                ret normalized_entities) in
      run_taggers text limit additional_result_fields
        normalized_entities taggers'
  end.

(** [if queries] holds for a dictionary that is there and not empty. *)
Definition entities (queries : option (dict query)) (text : option string)
    (limit : Z) (taggers : list string)
    (additional_result_fields : list string) : M loc :=
  match queries with
  | Some (kq :: queries') => query_entities (kq :: queries') limit
  | _ =>
      let* normalized_entities := new_dict in
      run_taggers text limit additional_result_fields
        normalized_entities taggers
  end.

(** *** Specification-level definitions *)

(** The first entry of a label set, when the record has the field and the
    field can be indexed. *)
Definition first_entry (rec : doc) (field : string) : option value :=
  match rec !! field with
  | Some v => match subscript0 v with inr x => Some x | inl _ => None end
  | None => None
  end.

Fixpoint first_nonempty (candidates : list (option value)) : option value :=
  match candidates with
  | [] => None
  | Some v :: candidates' =>
      if truthy v then Some v else first_nonempty candidates'
  | None :: candidates' => first_nonempty candidates'
  end.

(** The name as the fallback order words it: the first candidate that is
    there and not empty among the preferred label, the first preferred
    label of the set, the first plain label and the first alternative label;
    the raw id when there is none. *)
Definition name_by_fallback (rec : doc) : option value :=
  match first_nonempty [rec !! "preferred_label_s";
                        first_entry rec "skos_prefLabel_ss";
                        first_entry rec "label_ss";
                        first_entry rec "skos_altLabel_ss"] with
  | Some v => Some v
  | None => rec !! "id"
  end.

Definition no_label_fields (rec : doc) : Prop :=
  rec !! "preferred_label_s" = None ∧ rec !! "skos_prefLabel_ss" = None
  ∧ rec !! "label_ss" = None ∧ rec !! "skos_altLabel_ss" = None.



(** The match flag as it is worded: some value of some projected field
    other than [score], a scalar counting as a list of one value, equals
    the query string when both are lower-cased. *)
Definition equals_ignoring_case (v : scalar) (q : string) : Prop :=
  lower (py_str v) = lower q.

Definition some_field_equals (q : string) (rec : doc) : Prop :=
  ∃ field values v,
    field ∈ fields self ∧ field ≠ "score" ∧ rec !! field = Some values
    ∧ v ∈ as_list values ∧ equals_ignoring_case v q.

(** What one tagged record writes into the result map: the key and the
    resolved entity (lines 180-217), or the exception it raises. *)
Definition tag_write (additional_result_fields : list string) (rec : doc)
  : result (scalar * entity) :=
  let? res := tagged_result additional_result_fields rec in
  let? v := getitem rec "id" in
  let? id := hashable v in
  inr (id, res).

(** The writes of the records of a response, up to the first record that
    raises, and the exception of that record. *)
Fixpoint tagged_writes (additional_result_fields : list string)
    (docs : list doc) : list (scalar * entry) :=
  match docs with
  | [] => []
  | rec :: docs' =>
      match tag_write additional_result_fields rec with
      | inr (id, res) =>
          (id, <["result" := [res]]> ∅)
          :: tagged_writes additional_result_fields docs'
      | inl _ => []
      end
  end.

Fixpoint tagging_failure (additional_result_fields : list string)
    (docs : list doc) : option exn :=
  match docs with
  | [] => None
  | rec :: docs' =>
      match tag_write additional_result_fields rec with
      | inr _ => tagging_failure additional_result_fields docs'
      | inl e => Some e
      end
  end.

(** What a reply of the tagger adds to the result map, and the exception
    the run of that tagger ends with, if any. *)
Definition contribution (additional_result_fields : list string) (r : reply)
  : list (scalar * entry) :=
  match r with
  | Solr_docs docs => tagged_writes additional_result_fields docs
  | _ => []
  end.

Definition tagger_exception (additional_result_fields : list string)
    (r : reply) : option exn :=
  match r with
  | Transport_error msg => Some (RequestException msg)
  | Decode_error msg => Some (JSONDecodeError msg)
  | Solr_error => Some (KeyError (SStr "response"))
  | Solr_docs docs => tagging_failure additional_result_fields docs
  end.

(** The replies to a sequence of requests that follows the history [h]. *)
Fixpoint replies_from (h : list request) (reqs : list request) : list reply :=
  match reqs with
  | [] => []
  | rq :: reqs' => server h rq :: replies_from (h ++ [rq]) reqs'
  end.

(** The lines on the error stream for the taggers whose run raised. *)
Fixpoint failure_lines (additional_result_fields : list string)
    (taggers : list string) (replies : list reply) : list string :=
  match taggers, replies with
  | tagger :: taggers', r :: replies' =>
      match tagger_exception additional_result_fields r with
      | Some e => [tagger_failure tagger e]
      | None => []
      end ++ failure_lines additional_result_fields taggers' replies'
  | _, _ => []
  end.

(** The query string of a well-formed query, and the requests of a run of
    [query_entities]. *)
Definition query_text (q : query) : string :=
  match query_string q with
  | inr qs => qs
  | inl _ => ""
  end.

Definition select_requests (limit : Z) (queries : dict query) : list request :=
  (λ kq, select_request kq.2 (query_text kq.2) limit) <$> queries.

(** The row cap as it is worded: the limit of the query when it has one,
    the limit of the call otherwise. *)
Definition row_cap (q : query) (limit : Z) : value :=
  default (Atom (SInt limit)) (q !! "limit").

Definition request_params (rq : request) : gmap string value :=
  match rq with
  | Get _ params _ => params
  | Post _ _ params => params
  end.

Definition is_transport_or_decode_error (r : reply) : bool :=
  match r with
  | Transport_error _ | Decode_error _ => true
  | _ => false
  end.

End Methods.

(** The exception of a reply that fails in transport or in decoding. *)
Definition transport_or_decode_exception (r : reply) : option exn :=
  match r with
  | Transport_error msg => Some (RequestException msg)
  | Decode_error msg => Some (JSONDecodeError msg)
  | _ => None
  end.


(** The entities a call returned under a key of its result map. *)
Definition returned_entities (out : world * result loc) (key : scalar)
  : option (list entity) :=
  match out with
  | (w, inr l) =>
      match dict_get key (heap_get l (heap w)) with
      | Some e => e !! "result"
      | None => None
      end
  | (_, inl _) => None
  end.

(** ** Concrete inputs *)

(** [repr] of a float whose value is an integer below 10^16; enough for the
    scores of the examples. *)
Definition float_repr_integral (x : Qc) : string :=
  pretty (Qnum x / Zpos (Qden x)) +:+ ".0".

Definition no_index : list request → request → reply := λ _ _, Solr_error.

(** A record that has nothing but an empty id and a score. *)
Definition rec_empty_id : doc :=
  <["score" := Atom (SFloat (Q2Qc 1))]> (<["id" := Atom (SStr "")]> ∅).

Definition index_empty_id : list request → request → reply :=
  λ _ _, Solr_docs [rec_empty_id].

Definition queries_paris : dict query :=
  [(SStr "q0", <["query" := Atom (SStr "paris")]> ∅)].

(** A record of an index that has a field called [name]. *)
Definition rec_name_field : doc :=
  <["name" := Atom (SStr "Lutetia")]>
  (<["preferred_label_s" := Atom (SStr "Paris")]>
   (<["id" := Atom (SStr "E1")]> ∅)).

Definition index_name_field : list request → request → reply :=
  λ _ _, Solr_docs [rec_name_field].

(** A record of an index that has a field called [match]. *)
Definition rec_match_field : doc :=
  <["match" := Atom (SBool false)]> (<["id" := Atom (SStr "E1")]> ∅).

Definition index_match_field : list request → request → reply :=
  λ _ _, Solr_docs [rec_match_field].

(** The records of the match examples: one label equals the query up to
    case, or none does. *)
Definition rec_paris : doc :=
  <["label_ss" := Arr [SStr "Paris"; SStr "City of Paris"]]>
  (<["score" := Atom (SFloat (Q2Qc 12))]>
   (<["id" := Atom (SStr "E1")]> ∅)).

Definition rec_parris : doc :=
  <["label_ss" := Arr [SStr "Parris"]]>
  (<["score" := Atom (SFloat (Q2Qc 3))]>
   (<["id" := Atom (SStr "E2")]> ∅)).

Definition index_paris : list request → request → reply :=
  λ _ _, Solr_docs [rec_paris; rec_parris].

Definition entity_paris : entity :=
  <["type" := Arr []]>
  (<["match" := Atom (SBool true)]>
   (<["score" := Atom (SFloat (Q2Qc 12))]>
    (<["name" := Atom (SStr "Paris")]>
     (<["id" := Atom (SStr "E1")]> ∅)))).

Definition out_paris : world * result loc :=
  entities float_repr_integral index_paris Entity_Linker_class
    (Some queries_paris) None limit_default taggers_default [] world0.

(** Two tagged records, and an index whose first reply has the one and
    whose later replies have the other. *)
Definition rec_E1 : doc :=
  <["preferred_label_s" := Atom (SStr "Paris")]>
  (<["id" := Atom (SStr "E1")]> ∅).

Definition rec_E2 : doc :=
  <["skos_altLabel_ss" := Arr [SStr "alt1"]]>
  (<["id" := Atom (SStr "E2")]> ∅).

Definition index_by_turn : list request → request → reply :=
  λ h _, match h with
         | [] => Solr_docs [rec_E1]
         | _ => Solr_docs [rec_E2]
         end.

(** An index that cannot be reached at the first request. *)
Definition index_down_once : list request → request → reply :=
  λ h _, match h with
         | [] => Transport_error "Connection refused"
         | _ => Solr_docs [rec_E2]
         end.

Definition index_down : list request → request → reply :=
  λ _ _, Transport_error "Connection refused".

(** A query with a limit of its own, and an index with one record
    without a score. *)
Definition queries_limit : dict query :=
  [(SStr "q0", <["limit" := Atom (SInt 3)]>
               (<["query" := Atom (SStr "paris")]> ∅))].

Definition rec_no_score : doc := <["id" := Atom (SStr "E3")]> ∅.


Definition world1 : world :=
  {| heap := [[]; []]; sent := []; stderr := [] |}.


(** ** Well-formed input *)

(** A label set that has a first entry: a non-empty array or a non-empty
    string. *)
Definition has_first_entry (v : value) : Prop :=
  match v with
  | Arr (_ :: _) | Atom (SStr (String _ _)) => True
  | _ => False
  end.

(** A record the Query Resolver can turn into an entity: it has an id and a
    score, and the label sets it has are not empty. *)
Definition well_formed_record (rec : doc) : Prop :=
  is_Some (rec !! "id") ∧ is_Some (rec !! "score")
  ∧ ∀ field v, field ∈ ["skos_prefLabel_ss"; "label_ss"; "skos_altLabel_ss"] →
               rec !! field = Some v → has_first_entry v.

(** A query whose ['query'] is a string. *)
Definition has_query_string (q : query) : Prop :=
  ∃ qs, q !! "query" = Some (Atom (SStr qs)).

(** The keys of an entity of the Query Resolver. *)
Definition query_entity_keys : gset string :=
  {["id"]} ∪ {["name"]} ∪ {["score"]} ∪ {["match"]} ∪ {["type"]}.

(** The keys of an entity of the Dictionary Matcher before the requested
    extra fields are copied. *)
Definition tagged_entity_keys : list string := ["id"; "name"; "match"; "type"].

(** The replies of a list that end the run of their tagger with an
    exception. *)
Definition failing_replies (additional_result_fields : list string)
    (replies : list reply) : list reply :=
  List.filter
    (λ r, match tagger_exception additional_result_fields r with
          | Some _ => true
          | None => false
          end) replies.

(** ** More concrete inputs *)

Definition rec_paris_rescored : doc :=
  <["population" := Atom (SInt 2000000)]>
  (<["score" := Atom (SFloat (Q2Qc 1))]> rec_paris).

Definition index_no_hits : list request → request → reply :=
  λ _ _, Solr_docs [].

Definition rec_no_id : doc := <["preferred_label_s" := Atom (SStr "Rome")]> ∅.

(** A reply whose second record has no id. *)
Definition index_bad_middle : list request → request → reply :=
  λ _ _, Solr_docs ([rec_E1] ++ rec_no_id :: [rec_E2]).

Definition queries_no_query : dict query := [(SStr "q0", ∅)].

(** A record with a type, a population and a score. *)
Definition rec_typed : doc :=
  <["population" := Atom (SInt 2000000)]>
  (<["score" := Atom (SFloat (Q2Qc 7))]>
   (<["type_ss" := Arr [SStr "City"]]> rec_E1)).

(** A world in which the default accumulator already has an entry. *)
Definition world_used : world :=
  {| heap := [[(SStr "E9", <["result" := []]> ∅)]];
     sent := []; stderr := [] |}.

Definition entity_typed : entity :=
  <["population" := Atom (SInt 2000000)]>
  (<["type" := Arr [SStr "City"]]>
   (<["match" := Atom (SBool true)]>
    (<["name" := Atom (SStr "Paris")]>
     (<["id" := Atom (SStr "E1")]> ∅)))).

Definition entity_paris_rescored : entity :=
  <["type" := Arr []]>
  (<["match" := Atom (SBool true)]>
   (<["score" := Atom (SFloat (Q2Qc 1))]>
    (<["name" := Atom (SStr "Paris")]>
     (<["id" := Atom (SStr "E1")]> ∅)))).

(** ** UTF-8 *)

(** [str.encode('utf-8')] on code points below 256: one byte below 128, the
    two bytes [192 + c / 64] and [128 + c mod 64] from 128 on. *)
Definition utf8_char (c : ascii) : string :=
  let n := N_of_ascii c in
  if (n <? 128)%N then String c EmptyString
  else String (ascii_of_N (192 + n / 64))
         (String (ascii_of_N (128 + n mod 64)) EmptyString).

Fixpoint utf8_encode (s : string) : string :=
  match s with
  | EmptyString => EmptyString
  | String c s' => utf8_char c +:+ utf8_encode s'
  end.

Fixpoint is_ascii_text (s : string) : Prop :=
  match s with
  | EmptyString => True
  | String c s' => (N_of_ascii c < 128)%N ∧ is_ascii_text s'
  end.



(** ** Python equality and dictionaries *)

Lemma py_eqb_true a b : py_eqb a b = true ↔ hkey_of a = hkey_of b.
Proof. unfold py_eqb. apply bool_decide_eq_true. Qed.

Lemma py_eqb_false a b : py_eqb a b = false ↔ hkey_of a ≠ hkey_of b.
Proof. unfold py_eqb. apply bool_decide_eq_false. Qed.

Lemma py_eqb_refl a : py_eqb a a = true.
Proof. by apply py_eqb_true. Qed.

Lemma py_eqb_congr a b c : py_eqb a b = true → py_eqb a c = py_eqb b c.
Proof.
  intros Hab%py_eqb_true. unfold py_eqb. by rewrite Hab.
Qed.

Lemma py_eqb_str s t : py_eqb (SStr s) (SStr t) = bool_decide (s = t).
Proof.
  unfold py_eqb. simpl. apply bool_decide_ext. split; congruence.
Qed.

Section Dict.
Context {V : Type}.
Implicit Types (d : dict V) (k : scalar) (v : V).

Lemma dict_get_set k k' v d :
  dict_get k' (dict_set k v d)
  = if py_eqb k k' then Some v else dict_get k' d.
Proof.
  induction d as [|[k0 v0] d IH]; simpl; [done|].
  destruct (py_eqb k0 k) eqn:E0; simpl.
  - rewrite (py_eqb_congr _ _ k' E0). by destruct (py_eqb k k').
  - rewrite IH. destruct (py_eqb k0 k') eqn:E1; [|done].
    destruct (py_eqb k k') eqn:E2; [|done].
    apply py_eqb_true in E1, E2. apply py_eqb_false in E0. congruence.
Qed.

Lemma dict_get_set_eq k v d : dict_get k (dict_set k v d) = Some v.
Proof. by rewrite dict_get_set, py_eqb_refl. Qed.

Lemma dict_set_set k v v' d : dict_set k v' (dict_set k v d) = dict_set k v' d.
Proof.
  induction d as [|[k0 v0] d IH]; simpl.
  - by rewrite py_eqb_refl.
  - destruct (py_eqb k0 k) eqn:E0; simpl; rewrite E0; [done|].
    by rewrite IH.
Qed.

Lemma dict_update_app ws1 ws2 d :
  dict_update (ws1 ++ ws2) d = dict_update ws2 (dict_update ws1 d).
Proof. apply fold_left_app. Qed.

Lemma last_write_snoc k ws k' v :
  last_write k (ws ++ [(k', v)])
  = if py_eqb k' k then Some v else last_write k ws.
Proof.
  unfold last_write. rewrite List.filter_app. simpl.
  destruct (py_eqb k' k); simpl.
  - by rewrite last_snoc.
  - by rewrite app_nil_r.
Qed.

Lemma dict_get_update k ws d :
  dict_get k (dict_update ws d)
  = match last_write k ws with
    | Some v => Some v
    | None => dict_get k d
    end.
Proof.
  induction ws as [|[k' v] ws IH] using rev_ind; [done|].
  rewrite dict_update_app, last_write_snoc. simpl.
  rewrite dict_get_set. by destruct (py_eqb k' k).
Qed.

Lemma last_write_elem k ws v :
  last_write k ws = Some v → ∃ k', (k', v) ∈ ws ∧ py_eqb k' k = true.
Proof.
  unfold last_write. intros H.
  destruct (list.last _) as [[k' v']|] eqn:E; simplify_eq/=.
  apply last_Some_elem_of in E. apply list_elem_of_In in E.
  apply List.filter_In in E as [E1 E2]. apply list_elem_of_In in E1.
  eauto.
Qed.

Lemma last_write_None k ws :
  last_write k ws = None ↔ ∀ k' v, (k', v) ∈ ws → py_eqb k' k = false.
Proof.
  induction ws as [|[k0 v0] ws IH] using rev_ind.
  - split; [|done]. intros _ k' v H. by apply elem_of_nil in H.
  - rewrite last_write_snoc. destruct (py_eqb k0 k) eqn:E.
    + split; [done|]. intros H. specialize (H k0 v0).
      rewrite E in H. discriminate H. apply elem_of_app. right.
      apply list_elem_of_singleton. done.
    + rewrite IH. split.
      * intros H k' v [Hin|Hin%list_elem_of_singleton]%elem_of_app;
          [eauto|by simplify_eq].
      * intros H k' v Hin. apply (H k' v). apply elem_of_app. by left.
Qed.

Lemma last_write_lookup k v i (ws : list (scalar * V)) :
  dict_wf ws → ws !! i = Some (k, v) → last_write k ws = Some v.
Proof.
  unfold dict_wf, dict_keys. revert i.
  induction ws as [|[k' v'] ws IH] using rev_ind; intros i Hwf Hi; [done|].
  rewrite !fmap_app in Hwf. simpl in Hwf.
  apply list.NoDup_app in Hwf as (Hwf & Hnot & _).
  rewrite last_write_snoc.
  destruct (decide (i < length ws)%nat) as [Hlt|Hge].
  - rewrite lookup_app_l in Hi by done.
    destruct (py_eqb k' k) eqn:E; [|by eapply IH].
    apply py_eqb_true in E. exfalso. eapply (Hnot (hkey_of k)).
    + apply list_elem_of_fmap. exists k. split; [done|].
      apply list_elem_of_fmap. exists (k, v). split; [done|].
      by eapply list_elem_of_lookup_2.
    + rewrite <- E. apply list_elem_of_here.
  - rewrite lookup_app_r in Hi by lia.
    destruct (i - length ws)%nat; simpl in Hi; [|done].
    simplify_eq. by rewrite py_eqb_refl.
Qed.

End Dict.

(** ** The heap of result maps *)

Lemma heap_get_insert l s (h : list store) :
  (l < length h)%nat → heap_get l (<[l := s]> h) = s.
Proof. intros H. unfold heap_get. by rewrite list_lookup_insert_eq. Qed.

Lemma heap_insert_get l (h : list store) : <[l := heap_get l h]> h = h.
Proof.
  unfold heap_get. destruct (h !! l) as [s|] eqn:E; simpl.
  - by apply list_insert_id.
  - apply list_insert_ge. by apply lookup_ge_None.
Qed.

Lemma heap_get_fresh (h : list store) : heap_get (length h) (h ++ [[]]) = [].
Proof. unfold heap_get. by rewrite lookup_app_r, Nat.sub_diag. Qed.

Lemma world_eta w : {| heap := heap w; sent := sent w; stderr := stderr w |} = w.
Proof. by destruct w. Qed.

Lemma setitem_setitem2 l k field v (w : world) :
  (l < length (heap w))%nat →
  (let* _ := setitem l k ∅ in setitem2 l k field v) w
  = ({| heap := <[l := dict_set k (<[field := v]> ∅) (heap_get l (heap w))]>
                  (heap w);
        sent := sent w; stderr := stderr w |}, inr tt).
Proof.
  intros Hl. unfold setitem, setitem2, bind, read, write. simpl.
  rewrite heap_get_insert, dict_get_set_eq by done. simpl.
  by rewrite list_insert_insert_eq, dict_set_set.
Qed.

Lemma setitem2_again l k field v v' (w : world) :
  (l < length (heap w))%nat →
  dict_get k (heap_get l (heap w)) = Some (<[field := v]> ∅) →
  setitem2 l k field v' w
  = ({| heap := <[l := dict_set k (<[field := v']> ∅) (heap_get l (heap w))]>
                  (heap w);
        sent := sent w; stderr := stderr w |}, inr tt).
Proof.
  intros Hl Hk. unfold setitem2, bind, read, write. simpl. rewrite Hk. simpl.
  by rewrite insert_insert_eq.
Qed.

(** ** Loops *)

(** One step of a computation that begins with a lifted result. *)
Ltac run_lift := unfold bind at 1; unfold lift at 1; simpl.

Lemma for_each_app {A} (f : A → M unit) (l1 l2 : list A) (w : world) :
  for_each f (l1 ++ l2) w
  = match for_each f l1 w with
    | (w', inr _) => for_each f l2 w'
    | (w', inl e) => (w', inl e)
    end.
Proof.
  revert w. induction l1 as [|x l1 IH]; intros w; simpl; [done|].
  unfold bind. destruct (f x w) as [w' [e|[]]]; [done|]. apply IH.
Qed.

Lemma collect_Forall2 {A B} (f : A → result B) l ys :
  collect f l = inr ys → Forall2 (λ x y, f x = inr y) l ys.
Proof.
  revert ys. induction l as [|x l IH]; intros ys; simpl.
  - intros [= <-]. constructor.
  - destruct (f x) as [e|y] eqn:E; simpl; [done|].
    destruct (collect f l) as [e|ys']; simpl; [done|].
    intros [= <-]. constructor; [done|]. by apply IH.
Qed.


(** * Properties *)

Section Properties.

Variable float_repr : Qc → string.
Variable server : list request → request → reply.
Variable self : Entity_Linker.

(** ** One record *)

Lemma label_from_spec field rec label label' :
  label_from field rec label = inr label' →
  label' = (if truthy label then label
            else default label (first_entry rec field)).
Proof.
  unfold label_from, first_entry. destruct (truthy label); [congruence|].
  destruct (rec !! field) as [v|]; [|simpl; congruence].
  destruct (subscript0 v); simpl; congruence.
Qed.

Lemma first_entry_absent rec field :
  rec !! field = None → first_entry rec field = None.
Proof. unfold first_entry. by intros ->. Qed.

(** The label the code computes is the one the fallback order names. *)
Lemma normalized_label_fallback rec label :
  normalized_label rec = inr label →
  name_by_fallback rec = Some label.
Proof.
  unfold normalized_label, name_by_fallback, getitem.
  destruct (label_from "skos_prefLabel_ss" rec _) as [|l1] eqn:E1;
    simpl; [done|].
  destruct (label_from "label_ss" rec l1) as [|l2] eqn:E2; simpl; [done|].
  destruct (label_from "skos_altLabel_ss" rec l2) as [|l3] eqn:E3;
    simpl; [done|].
  apply label_from_spec in E1, E2, E3. subst l1 l2 l3. simpl.
  destruct (rec !! "preferred_label_s") as [p|];
    destruct (first_entry rec "skos_prefLabel_ss") as [a|];
    destruct (first_entry rec "label_ss") as [b|];
    destruct (first_entry rec "skos_altLabel_ss") as [c|]; simpl;
    repeat (case_match; simplify_eq/=); congruence.
Qed.

Lemma name_by_fallback_no_labels rec :
  no_label_fields rec → name_by_fallback rec = rec !! "id".
Proof.
  intros (H1 & H2 & H3 & H4). unfold name_by_fallback.
  rewrite H1, !first_entry_absent by done. simpl. by destruct (rec !! "id").
Qed.

Lemma first_nonempty_truthy cs v :
  first_nonempty cs = Some v → truthy v = true.
Proof.
  induction cs as [|[c|] cs IH]; simpl; [done| |done].
  destruct (truthy c) eqn:E; [|done]. by intros [= <-].
Qed.

Lemma name_by_fallback_truthy rec v :
  name_by_fallback rec = Some v →
  (∀ i, rec !! "id" = Some i → truthy i = true) →
  truthy v = true.
Proof.
  unfold name_by_fallback.
  destruct (first_nonempty _) as [c|] eqn:E.
  - intros [= <-] _. by eapply first_nonempty_truthy.
  - intros H Hid. by apply Hid.
Qed.

Lemma query_result_name q rec e :
  query_result float_repr self q rec = inr e →
  ∃ label, e !! "name" = Some label ∧ name_by_fallback rec = Some label.
Proof.
  unfold query_result.
  destruct (normalized_label rec) as [|label] eqn:E; [done|]. simpl.
  destruct (getitem rec "id"); [done|]. simpl.
  destruct (getitem rec "score"); [done|]. simpl. intros [= <-].
  apply normalized_label_fallback in E. exists label. by simplify_map_eq.
Qed.

Lemma scan_values_true q values m :
  scan_values float_repr q values m = true
  ↔ m = true ∨ ∃ v, v ∈ values ∧ equals_ignoring_case float_repr v q.
Proof.
  unfold scan_values, equals_ignoring_case. revert m.
  induction values as [|v values IH]; intros m; simpl.
  - split; [by left|]. intros [?|(v & Hv & _)]; [done|].
    by apply elem_of_nil in Hv.
  - rewrite IH. case_bool_decide as Hv.
    + split; [|by left]. intros _. right. exists v.
      split; [apply list_elem_of_here|done].
    + split.
      * intros [?|(v' & Hin & ?)]; [by left|]. right. exists v'.
        split; [by apply list_elem_of_further|done].
      * intros [?|(v' & Hin & ?)]; [by left|].
        apply elem_of_cons in Hin as [->|Hin]; [done|]. right. by exists v'.
Qed.

Lemma scan_fields_true q rec :
  scan_fields float_repr self q rec = true
  ↔ some_field_equals float_repr self q rec.
Proof.
  unfold scan_fields, some_field_equals.
  assert (∀ fs m,
    fold_left
      (λ m field,
         match rec !! field with
         | Some values =>
             if bool_decide (field = "score") then m
             else scan_values float_repr q (as_list values) m
         | None => m
         end) fs m = true
    ↔ m = true
      ∨ ∃ field values v,
          field ∈ fs ∧ field ≠ "score" ∧ rec !! field = Some values
          ∧ v ∈ as_list values ∧ equals_ignoring_case float_repr v q) as H.
  { induction fs as [|f fs IH]; intros m; simpl.
    - split; [by left|]. intros [?|(f & ? & ? & Hf & _)]; [done|].
      by apply elem_of_nil in Hf.
    - rewrite IH. split.
      + intros [Hm|(f' & vs & v & Hin & ?)].
        * destruct (rec !! f) as [vs|] eqn:Ef; [|by left].
          case_bool_decide as Hs; [by left|].
          apply scan_values_true in Hm as [?|(v & ? & ?)]; [by left|].
          right. exists f, vs, v. split; [apply list_elem_of_here|done].
        * right. exists f', vs, v. split; [by apply list_elem_of_further|done].
      + intros [->|(f' & vs & v & Hin & Hs & Hf & Hv & Heq)].
        * left. destruct (rec !! f); [|done]. case_bool_decide; [done|].
          apply scan_values_true. by left.
        * apply elem_of_cons in Hin as [->|Hin].
          -- left. rewrite Hf. rewrite bool_decide_eq_false_2 by done.
             apply scan_values_true. right. by exists v.
          -- right. by exists f', vs, v. }
  rewrite H. split; [|by right]. by intros [?|?].
Qed.

Lemma query_result_match q rec e :
  query_result float_repr self q rec = inr e →
  e !! "match" = Some (Atom (SBool (scan_fields float_repr self q rec))).
Proof.
  unfold query_result.
  destruct (normalized_label rec) as [|label] eqn:E; [done|]. simpl.
  destruct (getitem rec "id"); [done|]. simpl.
  destruct (getitem rec "score"); [done|]. simpl. intros [= <-].
  by simplify_map_eq.
Qed.

Lemma copy_fields_lookup extra rec res field :
  copy_fields extra rec res !! field
  = match (if bool_decide (field ∈ extra) then rec !! field else None) with
    | Some v => Some v
    | None => res !! field
    end.
Proof.
  unfold copy_fields. revert res.
  induction extra as [|f extra IH]; intros res; simpl; [done|].
  rewrite IH. destruct (decide (field = f)) as [->|Hne].
  - rewrite (bool_decide_eq_true_2 (f ∈ f :: extra)) by apply list_elem_of_here.
    destruct (rec !! f) as [v|] eqn:Ef.
    + rewrite lookup_insert_eq. by case_bool_decide.
    + by case_bool_decide.
  - assert (bool_decide (field ∈ f :: extra) = bool_decide (field ∈ extra))
      as ->.
    { apply bool_decide_ext. rewrite elem_of_cons. intuition congruence. }
    destruct (rec !! f); [|done]. by rewrite lookup_insert_ne.
Qed.

Lemma copy_fields_keep extra rec res field :
  field ∉ extra ∨ rec !! field = None →
  copy_fields extra rec res !! field = res !! field.
Proof.
  intros H. rewrite copy_fields_lookup. case_bool_decide; [|done].
  destruct H as [H| ->]; done.
Qed.

Lemma tagged_result_name extra rec e :
  tagged_result extra rec = inr e →
  "name" ∉ extra ∨ rec !! "name" = None →
  ∃ label, e !! "name" = Some label ∧ name_by_fallback rec = Some label.
Proof.
  unfold tagged_result.
  destruct (normalized_label rec) as [|label] eqn:E; [done|]. simpl.
  destruct (getitem rec "id"); [done|]. simpl. intros [= <-] H.
  rewrite copy_fields_keep by done.
  apply normalized_label_fallback in E. exists label. by simplify_map_eq.
Qed.

Lemma tag_write_inv extra rec id e :
  tag_write extra rec = inr (id, e) →
  tagged_result extra rec = inr e ∧ rec !! "id" = Some (Atom id).
Proof.
  unfold tag_write, getitem.
  destruct (tagged_result extra rec) as [|e']; simpl; [done|].
  destruct (rec !! "id") as [[a|]|]; simpl; [|done..].
  by intros [= <- <-].
Qed.

Lemma tagged_writes_elem extra docs id (en : entry) :
  (id, en) ∈ tagged_writes extra docs →
  ∃ rec e, rec ∈ docs ∧ tag_write extra rec = inr (id, e)
           ∧ en = <["result" := [e]]> ∅.
Proof.
  induction docs as [|rec docs IH]; simpl; [by intros ?%elem_of_nil|].
  destruct (tag_write extra rec) as [|[id' e']] eqn:E;
    [by intros ?%elem_of_nil|].
  intros [[= -> ->]|Hin]%elem_of_cons.
  - exists rec, e'. split; [apply list_elem_of_here|done].
  - destruct (IH Hin) as (rec' & e & ? & ? & ?). exists rec', e.
    split; [by apply list_elem_of_further|done].
Qed.

Lemma tagged_result_match extra rec e :
  tagged_result extra rec = inr e →
  "match" ∉ extra ∨ rec !! "match" = None →
  e !! "match" = Some (Atom (SBool true)).
Proof.
  unfold tagged_result.
  destruct (normalized_label rec) as [|label] eqn:E; [done|]. simpl.
  destruct (getitem rec "id"); [done|]. simpl. intros [= <-] H.
  rewrite copy_fields_keep by done. by simplify_map_eq.
Qed.






(** ** Runs of the taggers *)

Lemma tag_one_run l extra rec (w : world) :
  (l < length (heap w))%nat →
  tag_one l extra rec w
  = match tag_write extra rec with
    | inr (id, res) =>
        ({| heap := <[l := dict_set id (<["result" := [res]]> ∅)
                             (heap_get l (heap w))]> (heap w);
            sent := sent w; stderr := stderr w |}, inr tt)
    | inl e => (w, inl e)
    end.
Proof.
  intros Hl. unfold tag_one, tag_write.
  unfold bind at 1. unfold lift at 1.
  destruct (tagged_result extra rec) as [e|res]; simpl; [done|].
  unfold bind at 1. unfold lift at 1.
  destruct (getitem rec "id") as [e|v]; simpl; [done|].
  destruct (hashable v) as [e|id]; simpl; [done|].
  by apply setitem_setitem2.
Qed.

Lemma for_each_tag_run l extra docs (w : world) :
  (l < length (heap w))%nat →
  for_each (tag_one l extra) docs w
  = ({| heap := <[l := dict_update (tagged_writes extra docs)
                         (heap_get l (heap w))]> (heap w);
        sent := sent w; stderr := stderr w |},
     match tagging_failure extra docs with
     | None => inr tt
     | Some e => inl e
     end).
Proof.
  revert w. induction docs as [|rec docs IH]; intros w Hl; simpl.
  - unfold ret. by rewrite heap_insert_get, world_eta.
  - unfold bind. rewrite tag_one_run by done.
    destruct (tag_write extra rec) as [e|[id res]]; simpl.
    + by rewrite heap_insert_get, world_eta.
    + rewrite IH by (simpl; by rewrite length_insert). simpl.
      by rewrite heap_get_insert, list_insert_insert_eq.
Qed.

Lemma dictionary_matcher_run text limit tagger l extra (w : world) :
  (l < length (heap w))%nat →
  let rq := tagger_request self text limit tagger extra in
  let r := server (sent w) rq in
  dictionary_matcher server self (Some text) limit tagger (Some l) extra w
  = ({| heap := <[l := dict_update (contribution extra r)
                         (heap_get l (heap w))]> (heap w);
        sent := sent w ++ [rq]; stderr := stderr w |},
     match tagger_exception extra r with
     | None => inr l
     | Some e => inl e
     end).
Proof.
  intros Hl rq r. unfold dictionary_matcher. simpl.
  run_lift.
  unfold bind at 1. unfold issue at 1. simpl. fold rq. fold r.
  destruct r eqn:Er; simpl.
  - by rewrite heap_insert_get.
  - unfold bind, lift. simpl. by rewrite heap_insert_get.
  - unfold bind, lift. simpl. by rewrite heap_insert_get.
  - run_lift.
    run_lift.
    unfold bind at 1. rewrite for_each_tag_run by done. simpl.
    by destruct (tagging_failure extra docs).
Qed.

Lemma dictionary_matcher_no_text limit tagger l extra (w : world) :
  dictionary_matcher server self None limit tagger l extra w
  = (w, inl (AttributeError "'NoneType' object has no attribute 'encode'")).
Proof. done. Qed.

Lemma run_taggers_run text limit extra l taggers (w : world) :
  (l < length (heap w))%nat →
  let reqs := (λ tagger, tagger_request self text limit tagger extra)
              <$> taggers in
  let replies := replies_from server (sent w) reqs in
  run_taggers float_repr server self (Some text) limit extra l taggers w
  = ({| heap := <[l := dict_update (concat (contribution extra <$> replies))
                         (heap_get l (heap w))]> (heap w);
        sent := sent w ++ reqs;
        stderr := stderr w ++ failure_lines float_repr extra taggers replies |},
     inr l).
Proof.
  revert w. induction taggers as [|tagger taggers IH]; intros w Hl; simpl.
  - unfold ret. by rewrite heap_insert_get, !app_nil_r, world_eta.
  - unfold bind at 1. unfold try_except.
    rewrite dictionary_matcher_run by done. simpl.
    set (rq := tagger_request self text limit tagger extra).
    set (r := server (sent w) rq).
    destruct (tagger_exception extra r) as [e|]; simpl.
    + rewrite IH by (simpl; by rewrite length_insert). simpl.
      rewrite heap_get_insert, list_insert_insert_eq by done.
      rewrite dict_update_app, <- !(assoc_L (++)). done.
    + rewrite IH by (simpl; by rewrite length_insert). simpl.
      rewrite heap_get_insert, list_insert_insert_eq by done.
      rewrite dict_update_app, <- !(assoc_L (++)). done.
Qed.

Lemma run_taggers_no_text limit extra l taggers (w : world) :
  run_taggers float_repr server self None limit extra l taggers w
  = ({| heap := heap w; sent := sent w;
        stderr := stderr w
                  ++ ((λ tagger,
                         tagger_failure float_repr tagger
                           (AttributeError
                              "'NoneType' object has no attribute 'encode'"))
                      <$> taggers) |},
     inr l).
Proof.
  revert w. induction taggers as [|tagger taggers IH]; intros w; simpl.
  - unfold ret. by rewrite app_nil_r, world_eta.
  - unfold bind at 1. unfold try_except.
    rewrite dictionary_matcher_no_text. simpl.
    rewrite IH. simpl. by rewrite <- (assoc_L (++)).
Qed.

(** Without queries, [entities] is the loop over the taggers on a fresh
    result map. *)
Lemma entities_no_queries queries text limit taggers extra (w : world) :
  queries = None ∨ queries = Some [] →
  entities float_repr server self queries text limit taggers extra w
  = run_taggers float_repr server self text limit extra (length (heap w))
      taggers
      {| heap := heap w ++ [[]]; sent := sent w; stderr := stderr w |}.
Proof. by intros [-> | ->]. Qed.

Lemma entities_tagged queries text limit taggers extra (w : world) :
  queries = None ∨ queries = Some [] →
  let reqs := (λ tagger, tagger_request self text limit tagger extra)
              <$> taggers in
  let replies := replies_from server (sent w) reqs in
  entities float_repr server self queries (Some text) limit taggers extra w
  = ({| heap := heap w
                ++ [dict_update (concat (contribution extra <$> replies)) []];
        sent := sent w ++ reqs;
        stderr := stderr w ++ failure_lines float_repr extra taggers replies |},
     inr (length (heap w))).
Proof.
  intros Hq reqs replies. rewrite entities_no_queries by done.
  rewrite run_taggers_run by (simpl; rewrite length_app; simpl; lia).
  simpl. rewrite heap_get_fresh.
  rewrite insert_app_r_alt, Nat.sub_diag by done. done.
Qed.

Lemma failure_lines_elem extra taggers replies i tagger r e :
  taggers !! i = Some tagger → replies !! i = Some r →
  tagger_exception extra r = Some e →
  tagger_failure float_repr tagger e
  ∈ failure_lines float_repr extra taggers replies.
Proof.
  revert replies i.
  induction taggers as [|t taggers IH]; intros [|r' replies] [|i];
    simpl; try done.
  - intros [= ->] [= ->] ->. apply list_elem_of_here.
  - intros Ht Hr He. apply elem_of_app. right. by eapply IH.
Qed.

Lemma contribution_failed extra r :
  is_transport_or_decode_error r = true → contribution extra r = [].
Proof. by destruct r. Qed.

Lemma contributions_filter extra replies :
  concat (contribution extra
          <$> List.filter (λ r, negb (is_transport_or_decode_error r)) replies)
  = concat (contribution extra <$> replies).
Proof.
  induction replies as [|r replies IH]; simpl; [done|].
  destruct (is_transport_or_decode_error r) eqn:E; simpl.
  - rewrite contribution_failed by done. exact IH.
  - f_equal. exact IH.
Qed.

(** ** Runs of the queries *)


Lemma query_one_run l limit key q (w : world) :
  (l < length (heap w))%nat →
  query_one float_repr server self l limit (key, q) w
  = match query_string q with
    | inl e => (w, inl e)
    | inr qs =>
        let rq := select_request self q qs limit in
        let put (results : list entity) :=
          {| heap := <[l := dict_set key (<["result" := results]> ∅)
                               (heap_get l (heap w))]> (heap w);
             sent := sent w ++ [rq]; stderr := stderr w |} in
        match server (sent w) rq with
        | Transport_error msg =>
            ({| heap := heap w; sent := sent w ++ [rq]; stderr := stderr w |},
             inl (RequestException msg))
        | Decode_error msg =>
            ({| heap := heap w; sent := sent w ++ [rq]; stderr := stderr w |},
             inl (JSONDecodeError msg))
        | Solr_error => (put [], inl (KeyError (SStr "response")))
        | Solr_docs docs =>
            match collect (query_result float_repr self qs) docs with
            | inl e => (put [], inl e)
            | inr results => (put results, inr tt)
            end
        end
    end.
Proof.
  intros Hl. unfold query_one.
  unfold bind at 1. unfold lift at 1.
  destruct (query_string q) as [e|qs]; simpl; [done|].
  unfold bind at 1. unfold issue at 1. simpl.
  set (rq := select_request self q qs limit).
  destruct (server (sent w) rq) as [msg|msg| |docs] eqn:Er; simpl; [done| | |].
  - done.
  - run_lift.
    unfold bind at 1.
    pose proof (setitem_setitem2 l key "result" []
      {| heap := heap w; sent := sent w ++ [rq]; stderr := stderr w |} Hl)
      as Hs.
    unfold bind in Hs at 1.
    destruct (setitem l key ∅ _) as [w1 [e|[]]] eqn:E1.
    { unfold setitem, bind, read, write in E1. simpl in E1. congruence. }
    unfold bind at 1. rewrite Hs. simpl. done.
  - run_lift.
    unfold bind at 1.
    pose proof (setitem_setitem2 l key "result" []
      {| heap := heap w; sent := sent w ++ [rq]; stderr := stderr w |} Hl)
      as Hs.
    unfold bind in Hs at 1.
    destruct (setitem l key ∅ _) as [w1 [e|[]]] eqn:E1.
    { unfold setitem, bind, read, write in E1. simpl in E1. congruence. }
    unfold bind at 1. rewrite Hs. simpl.
    run_lift.
    run_lift.
    destruct (collect _ docs) as [e|results]; simpl; [done|].
    rewrite setitem2_again with (v := []); simpl.
    + by rewrite heap_get_insert, list_insert_insert_eq, dict_set_set.
    + by rewrite length_insert.
    + by rewrite heap_get_insert, dict_get_set_eq.
Qed.

Lemma query_text_ok q qs : query_string q = inr qs → query_text q = qs.
Proof. unfold query_text. by intros ->. Qed.

(** A loop over the queries that ends normally: every request went out and
    was answered with records, every record gave an entity, and the result
    map received one entry per query, in order. *)
Lemma query_loop_ok l limit queries (w w' : world) :
  (l < length (heap w))%nat →
  for_each (query_one float_repr server self l limit) queries w
  = (w', inr tt) →
  ∃ writes : list (scalar * entry),
    heap w' = <[l := dict_update writes (heap_get l (heap w))]> (heap w)
    ∧ sent w' = sent w ++ select_requests self limit queries
    ∧ stderr w' = stderr w
    ∧ writes.*1 = queries.*1
    ∧ ∀ i key q, queries !! i = Some (key, q) →
        ∃ qs docs results,
          query_string q = inr qs
          ∧ server (sent w ++ take i (select_requests self limit queries))
                   (select_request self q qs limit) = Solr_docs docs
          ∧ collect (query_result float_repr self qs) docs = inr results
          ∧ writes !! i = Some (key, <["result" := results]> ∅).
Proof.
  revert w. induction queries as [|[key q] queries IH]; intros w Hl.
  - simpl. intros [= <-]. exists []. simpl.
    rewrite heap_insert_get, app_nil_r. done.
  - cbn [for_each]. unfold bind at 1. rewrite query_one_run by done.
    destruct (query_string q) as [e|qs] eqn:Eq; simpl; [done|].
    destruct (server (sent w) (select_request self q qs limit))
      as [msg|msg| |docs] eqn:Er; simpl; try done.
    destruct (collect _ docs) as [e|results] eqn:Ec; simpl; [done|].
    intros Hrun. apply IH in Hrun; [|simpl; by rewrite length_insert].
    destruct Hrun as (writes & Hheap & Hsent & Herr & Hkeys & Hall).
    simpl in *. rewrite heap_get_insert, list_insert_insert_eq in Hheap by done.
    exists ((key, <["result" := results]> ∅) :: writes).
    split_and!; simpl.
    + done.
    + unfold select_requests at 1. simpl.
      rewrite (query_text_ok _ _ Eq).
      by rewrite Hsent, <- (assoc_L (++)).
    + done.
    + f_equal. exact Hkeys.
    + intros [|i] key' q' Hi; simpl in Hi.
      * simplify_eq. exists qs, docs, results.
        simpl. by rewrite app_nil_r.
      * destruct (Hall i key' q' Hi) as (qs' & docs' & results' & ? & Hs & ? & ?).
        exists qs', docs', results'. split_and!; try done.
        unfold select_requests at 1. simpl.
        rewrite (query_text_ok _ _ Eq).
        by rewrite <- (assoc_L (++)) in Hs.
Qed.

Lemma query_entities_ok limit queries (w w' : world) l :
  query_entities float_repr server self queries limit w = (w', inr l) →
  l = length (heap w)
  ∧ ∃ writes : list (scalar * entry),
      heap w' = heap w ++ [dict_update writes []]
      ∧ sent w' = sent w ++ select_requests self limit queries
      ∧ stderr w' = stderr w
      ∧ writes.*1 = queries.*1
      ∧ ∀ i key q, queries !! i = Some (key, q) →
          ∃ qs docs results,
            query_string q = inr qs
            ∧ server (sent w ++ take i (select_requests self limit queries))
                     (select_request self q qs limit) = Solr_docs docs
            ∧ collect (query_result float_repr self qs) docs = inr results
            ∧ writes !! i = Some (key, <["result" := results]> ∅).
Proof.
  unfold query_entities. unfold bind at 1. unfold new_dict at 1.
  unfold bind at 1.
  destruct (for_each _ queries _) as [w1 [e|[]]] eqn:E; [done|].
  unfold ret. intros [= <- <-]. split; [done|].
  apply query_loop_ok in E; [|simpl; rewrite length_app; simpl; lia].
  destruct E as (writes & Hheap & Hsent & Herr & Hkeys & Hall).
  simpl in *. exists writes. split_and!; try done.
  rewrite Hheap, heap_get_fresh.
  by rewrite insert_app_r_alt, Nat.sub_diag.
Qed.

(** The entry of a query in the result map of a run that ended normally. *)
Lemma query_entities_entry limit queries (w w' : world) l i key q :
  query_entities float_repr server self queries limit w = (w', inr l) →
  dict_wf queries →
  queries !! i = Some (key, q) →
  ∃ qs docs results,
    query_string q = inr qs
    ∧ server (sent w ++ take i (select_requests self limit queries))
             (select_request self q qs limit) = Solr_docs docs
    ∧ collect (query_result float_repr self qs) docs = inr results
    ∧ dict_get key (heap_get l (heap w')) = Some (<["result" := results]> ∅).
Proof.
  intros Hrun Hwf Hi.
  apply query_entities_ok in Hrun
    as (-> & writes & Hheap & Hsent & Herr & Hkeys & Hall).
  destruct (Hall i key q Hi) as (qs & docs & results & Hq & Hs & Hc & Hw).
  exists qs, docs, results. split_and!; try done.
  rewrite Hheap. unfold heap_get.
  rewrite lookup_app_r, Nat.sub_diag by done. simpl.
  rewrite dict_get_update.
  erewrite last_write_lookup; [done| |exact Hw].
  unfold dict_wf, dict_keys in *. by rewrite Hkeys.
Qed.

Lemma query_entities_body limit queries (w : world) :
  query_entities float_repr server self queries limit w
  = match for_each (query_one float_repr server self (length (heap w)) limit)
            queries
            {| heap := heap w ++ [[]]; sent := sent w; stderr := stderr w |}
    with
    | (w', inr _) => (w', inr (length (heap w)))
    | (w', inl e) => (w', inl e)
    end.
Proof.
  unfold query_entities. unfold bind at 1. unfold new_dict at 1.
  unfold bind at 1. by destruct (for_each _ queries _) as [w' [e|[]]].
Qed.

(** A query whose processing raises after the queries before it went
    well makes the whole call raise, in the state of that moment. *)
Lemma entities_query_raises queries1 kq queries2 text limit taggers extra
    (w w1 w2 : world) l e :
  query_entities float_repr server self queries1 limit w = (w1, inr l) →
  query_one float_repr server self l limit kq w1 = (w2, inl e) →
  entities float_repr server self (Some (queries1 ++ kq :: queries2)) text
    limit taggers extra w
  = (w2, inl e).
Proof.
  intros H1 H2.
  assert (entities float_repr server self (Some (queries1 ++ kq :: queries2))
            text limit taggers extra w
          = query_entities float_repr server self
              (queries1 ++ kq :: queries2) limit w) as ->.
  { by destruct queries1. }
  rewrite query_entities_body in H1 |- *.
  rewrite for_each_app.
  destruct (for_each _ queries1 _) as [w1' [e1|[]]]; [done|].
  injection H1 as -> <-. cbn [for_each]. unfold bind at 1.
  by rewrite H2.
Qed.

Lemma query_entities_valid limit queries (w w' : world) l :
  query_entities float_repr server self queries limit w = (w', inr l) →
  (l < length (heap w'))%nat.
Proof.
  intros (-> & writes & -> & _)%query_entities_ok.
  rewrite length_app. simpl. lia.
Qed.


Lemma query_one_fails l limit key q qs e (w : world) :
  (l < length (heap w))%nat →
  query_string q = inr qs →
  transport_or_decode_exception
    (server (sent w) (select_request self q qs limit)) = Some e →
  query_one float_repr server self l limit (key, q) w
  = ({| heap := heap w; sent := sent w ++ [select_request self q qs limit];
        stderr := stderr w |}, inl e).
Proof.
  intros Hl Hq He. rewrite query_one_run by done.
  rewrite Hq. simpl.
  destruct (server (sent w) (select_request self q qs limit));
    simpl in He; by simplify_eq.
Qed.

(** ** What the three methods guarantee *)

(** C8: without queries ([None] or an empty dictionary) and without text,
    [entities] returns normally; the map it returns is empty and no request
    has been issued to the index. *)
Theorem entities_empty_input queries limit taggers extra (w : world) :
  queries = None ∨ queries = Some [] →
  ∃ w' l,
    entities float_repr server self queries None limit taggers extra w
    = (w', inr l)
    ∧ heap_get l (heap w') = []
    ∧ sent w' = sent w.
Proof.
  intros Hq. rewrite entities_no_queries, run_taggers_no_text by done.
  eexists _, _. split; [done|]. simpl. split; [|done].
  apply heap_get_fresh.
Qed.

(** C1 (amended): the name of an entity that the Query Resolver or the
    Dictionary Matcher emits for a record is the first candidate that is
    present and not empty in the order preferred label, first entry of the
    preferred-label set, first entry of the plain-label set, first entry of
    the alt-label set, and the raw id when there is none; a record with no
    label field gets its id; and the name is not empty when the id is not
    empty.  For the Dictionary Matcher this holds as long as [name] is not
    itself a requested extra field that the record has. *)
Theorem name_fallback_order q extra rec (e : entity) :
  query_result float_repr self q rec = inr e
  ∨ (tagged_result extra rec = inr e
     ∧ ("name" ∉ extra ∨ rec !! "name" = None)) →
  e !! "name" = name_by_fallback rec
  ∧ (no_label_fields rec → e !! "name" = rec !! "id")
  ∧ (∀ i, rec !! "id" = Some i → truthy i = true →
          ∃ v, e !! "name" = Some v ∧ truthy v = true).
Proof.
  intros H.
  assert (∃ label, e !! "name" = Some label
                   ∧ name_by_fallback rec = Some label)
    as (label & He & Hn).
  { destruct H as [H|[H Hx]].
    - by eapply query_result_name.
    - by eapply tagged_result_name. }
  split_and!.
  - congruence.
  - intros Hno. rewrite He, <- Hn. by apply name_by_fallback_no_labels.
  - intros i Hi Ht. exists label. split; [done|].
    eapply name_by_fallback_truthy; [done|]. intros i'. congruence.
Qed.


(** C3 (amended): when [match] is not one of the requested extra fields,
    every entry that a call of the Dictionary Matcher leaves in its result
    map is an entry the map had before the call or holds one entity whose
    [match] is [True], whatever the text, the tagger and the records, and
    whether the call returns or raises. *)
Theorem dictionary_matches_are_exact text limit tagger ne extra
    (w w' : world) out :
  "match" ∉ extra →
  (default dm_default ne < length (heap w))%nat →
  dictionary_matcher server self text limit tagger ne extra w = (w', out) →
  ∀ id (en : entry),
    dict_get id (heap_get (default dm_default ne) (heap w')) = Some en →
    dict_get id (heap_get (default dm_default ne) (heap w)) = Some en
    ∨ ∃ e : entity, en = <["result" := [e]]> ∅
                    ∧ e !! "match" = Some (Atom (SBool true)).
Proof.
  intros Hx Hl Hrun id en Hen.
  destruct text as [text|].
  - change (dictionary_matcher server self (Some text) limit tagger ne extra w)
      with (dictionary_matcher server self (Some text) limit tagger
              (Some (default dm_default ne)) extra w) in Hrun.
    rewrite dictionary_matcher_run in Hrun by done.
    injection Hrun as <- _. simpl in Hen.
    rewrite heap_get_insert, dict_get_update in Hen by done.
    destruct (last_write id _) as [en'|] eqn:El; [|by left].
    simplify_eq. right.
    apply last_write_elem in El as (id' & Hin & _).
    destruct (server _ _) as [| | |docs]; simpl in Hin;
      try by apply elem_of_nil in Hin.
    apply tagged_writes_elem in Hin as (rec & e & _ & Hw & ->).
    apply tag_write_inv in Hw as [Hw _].
    exists e. split; [done|]. eapply tagged_result_match; [done|by left].
  - rewrite dictionary_matcher_no_text in Hrun. injection Hrun as <- _.
    by left.
Qed.

(** C4: when [entities] runs the dictionary path over a list of taggers,
    the call does not raise, a request goes out for every tagger of the
    list in order, a tagger whose request fails in transport or whose
    reply cannot be decoded leaves on the error stream the line
    "Exception using Solr Text Tagger", its name, a colon and the message
    of the error, and adds nothing to the result map, and the map
    returned is the one the other taggers' replies build. *)
Theorem tagger_failures_are_skipped queries text limit taggers extra
    (w : world) :
  queries = None ∨ queries = Some [] →
  let reqs := (λ tagger, tagger_request self text limit tagger extra)
              <$> taggers in
  let replies := replies_from server (sent w) reqs in
  ∃ w' l,
    entities float_repr server self queries (Some text) limit taggers extra w
    = (w', inr l)
    ∧ sent w' = sent w ++ reqs
    ∧ (∀ i tagger r msg,
         taggers !! i = Some tagger → replies !! i = Some r →
         r = Transport_error msg ∨ r = Decode_error msg →
         ("Exception using Solr Text Tagger " +:+ tagger +:+ ": " +:+ msg
          +:+ newline) ∈ stderr w'
         ∧ contribution extra r = [])
    ∧ heap_get l (heap w')
      = dict_update
          (concat (contribution extra
                   <$> List.filter
                         (λ r, negb (is_transport_or_decode_error r))
                         replies)) [].
Proof.
  intros Hq reqs replies. rewrite entities_tagged by done.
  eexists _, _. split; [done|]. simpl. split_and!.
  - done.
  - intros i tagger r msg Ht Hr Hf.
    assert (∃ e, tagger_exception extra r = Some e
                 ∧ tagger_failure float_repr tagger e
                   = "Exception using Solr Text Tagger " +:+ tagger
                     +:+ ": " +:+ msg +:+ newline) as (e & He & Hline).
    { destruct Hf as [-> | ->]; eexists; (split; [reflexivity|]);
        reflexivity. }
    split; [|by destruct Hf as [-> | ->]].
    rewrite <- Hline. apply elem_of_app. right. by eapply failure_lines_elem.
  - unfold heap_get. rewrite lookup_app_r, Nat.sub_diag by done. simpl.
    by rewrite contributions_filter.
Qed.

(** C5: the result map of a run over several taggers holds, under every
    id, the entry written last for that id among the writes of all the
    taggers in listed order (and of the records of one reply in their
    order); every id written is a key of the map; and every entry is the
    result list of exactly one entity, the one of a record with that id. *)
Theorem taggers_accumulate queries text limit taggers extra (w : world) :
  queries = None ∨ queries = Some [] →
  let reqs := (λ tagger, tagger_request self text limit tagger extra)
              <$> taggers in
  let writes := concat (contribution extra
                        <$> replies_from server (sent w) reqs) in
  ∃ w' l,
    entities float_repr server self queries (Some text) limit taggers extra w
    = (w', inr l)
    ∧ (∀ id, dict_get id (heap_get l (heap w')) = last_write id writes)
    ∧ (∀ id en, (id, en) ∈ writes →
                is_Some (dict_get id (heap_get l (heap w'))))
    ∧ (∀ id (en : entry),
         dict_get id (heap_get l (heap w')) = Some en →
         ∃ (rec : doc) (id' : scalar) (e : entity),
           rec !! "id" = Some (Atom id') ∧ py_eqb id' id = true
           ∧ tagged_result extra rec = inr e
           ∧ en = <["result" := [e]]> ∅).
Proof.
  intros Hq reqs writes. rewrite entities_tagged by done.
  eexists _, _. split; [done|]. simpl.
  assert (∀ id,
    dict_get id (heap_get (length (heap w))
                   (heap w ++ [dict_update writes []]))
    = last_write id writes) as Hget.
  { intros id. unfold heap_get.
    rewrite lookup_app_r, Nat.sub_diag by done. simpl.
    rewrite dict_get_update. by destruct (last_write id writes). }
  split_and!.
  - exact Hget.
  - intros id en Hin. rewrite Hget.
    destruct (last_write id writes) eqn:E; [done|].
    rewrite last_write_None in E. specialize (E id en Hin).
    by rewrite py_eqb_refl in E.
  - intros id en. rewrite Hget. intros (id' & Hin & Heq)%last_write_elem.
    unfold writes in Hin. apply list_elem_of_In, in_concat in Hin
      as (ws & Hws%list_elem_of_In & Hin%list_elem_of_In).
    apply list_elem_of_fmap in Hws as (r & -> & _).
    destruct r as [| | |docs]; simpl in Hin; try by apply elem_of_nil in Hin.
    apply tagged_writes_elem in Hin as (rec & e & _ & Hw & ->).
    apply tag_write_inv in Hw as [Hres Hid]. by exists rec, id', e.
Qed.

(** C6: in a run of the Query Resolver that ends normally, the request
    sent for a query key has as [rows] the limit of that query when the
    query has one and the limit of the call otherwise, which is 10000 by
    default; and the entities under the key are as many as the records of
    the reply to that request. *)
Theorem row_cap_per_query queries text limit taggers extra (w w' : world) l
    i key q :
  entities float_repr server self (Some queries) text limit taggers extra w
  = (w', inr l) →
  dict_wf queries →
  queries !! i = Some (key, q) →
  ∃ rq docs results,
    sent w' !! (length (sent w) + i)%nat = Some rq
    ∧ request_params rq !! "rows" = Some (row_cap q limit)
    ∧ (q !! "limit" = None → limit = limit_default →
       request_params rq !! "rows" = Some (Atom (SInt 10000)))
    ∧ server (sent w ++ take i (select_requests self limit queries)) rq
      = Solr_docs docs
    ∧ dict_get key (heap_get l (heap w')) = Some (<["result" := results]> ∅)
    ∧ length results = length docs.
Proof.
  intros Hrun Hwf Hi.
  assert (query_entities float_repr server self queries limit w = (w', inr l))
    as Hrun'.
  { destruct queries; [done|exact Hrun]. }
  destruct (query_entities_entry _ _ _ _ _ _ _ _ Hrun' Hwf Hi)
    as (qs & docs & results & Hq & Hs & Hc & Hd).
  apply query_entities_ok in Hrun' as (_ & _ & _ & Hsent & _).
  assert (request_params (select_request self q qs limit) !! "rows"
          = Some (row_cap q limit)) as Hrows.
  { unfold select_request, select_params, row_cap. simpl.
    destruct (q !! "limit"); simpl; by rewrite lookup_insert_eq. }
  exists (select_request self q qs limit), docs, results. split_and!; try done.
  - rewrite Hsent, lookup_app_r by lia.
    replace (length (sent w) + i - length (sent w))%nat with i by lia.
    unfold select_requests. rewrite list_lookup_fmap.
    unfold dict in *. rewrite Hi. simpl.
    by rewrite (query_text_ok _ _ Hq).
  - intros Hnone ->. rewrite Hrows. unfold row_cap. by rewrite Hnone.
  - apply collect_Forall2 in Hc. symmetry. by eapply list.Forall2_length.
Qed.

(** C7: when the queries before a key went well and the request of that
    key fails in transport, or its reply cannot be decoded, [entities]
    (and [query_entities], which it calls) raises that very exception to
    its caller: no map is returned, the request of the key went out once
    and no request after it, nothing was written to the result map and
    nothing to the error stream. *)
Theorem query_failure_propagates queries1 key q queries2 text limit taggers
    extra (w w1 : world) l qs e :
  query_entities float_repr server self queries1 limit w = (w1, inr l) →
  query_string q = inr qs →
  transport_or_decode_exception
    (server (sent w1) (select_request self q qs limit)) = Some e →
  ∃ w2,
    entities float_repr server self (Some (queries1 ++ (key, q) :: queries2))
      text limit taggers extra w
    = (w2, inl e)
    ∧ query_entities float_repr server self
        (queries1 ++ (key, q) :: queries2) limit w
      = (w2, inl e)
    ∧ sent w2 = sent w1 ++ [select_request self q qs limit]
    ∧ heap w2 = heap w1
    ∧ stderr w2 = stderr w.
Proof.
  intros Hpre Hq He.
  pose proof (query_entities_valid _ _ _ _ _ Hpre) as Hl.
  pose proof (query_one_fails l limit key q qs e w1
                Hl Hq He) as H1.
  assert (stderr w1 = stderr w) as Herr.
  { by apply query_entities_ok in Hpre as (_ & _ & _ & _ & ? & _). }
  pose proof (entities_query_raises queries1 (key, q)
                queries2 text limit taggers extra w w1 _ l e Hpre H1) as H2.
  eexists. split; [exact H2|]. split; [|done].
  rewrite <- H2. by destruct queries1.
Qed.


End Properties.

(** C9: a call of [dictionary_matcher] without an accumulator writes into
    the one default dictionary of the function and returns it, so that the
    map it returns starts from what earlier such calls left there.  Called
    twice with the same arguments, on an index that tags E1 at the first
    request and E2 at the second, it returns after the second call a map
    that has E1 besides E2, while the same call on a fresh dictionary has
    E2 alone. *)
Theorem default_accumulator_is_shared :
  (∀ (server : list request → request → reply) (self : Entity_Linker)
     (text : string) (limit : Z) (tagger : string) (extra : list string)
     (w : world),
     (dm_default < length (heap w))%nat →
     let r := server (sent w) (tagger_request self text limit tagger extra) in
     ∃ w' out,
       dictionary_matcher server self (Some text) limit tagger None extra w
       = (w', out)
       ∧ heap_get dm_default (heap w')
         = dict_update (contribution extra r) (heap_get dm_default (heap w))
       ∧ (tagger_exception extra r = None → out = inr dm_default))
  ∧ (let call := dictionary_matcher index_by_turn Entity_Linker_class
                   (Some "Paris") limit_default tagger_default in
     let out1 := call None [] world0 in
     let out2 := call None [] out1.1 in
     let fresh := call (Some 1%nat) [] (new_dict out1.1).1 in
     out1.2 = inr dm_default
     ∧ out2.2 = inr dm_default
     ∧ dict_keys (heap_get dm_default (heap out1.1)) = [SStr "E1"]
     ∧ index_by_turn (sent out1.1)
         (tagger_request Entity_Linker_class "Paris" limit_default
            tagger_default [])
       = Solr_docs [rec_E2]
     ∧ dict_keys (heap_get dm_default (heap out2.1))
       = [SStr "E1"; SStr "E2"]
     ∧ fresh.2 = inr 1%nat
     ∧ dict_keys (heap_get 1%nat (heap fresh.1)) = [SStr "E2"]).
Proof.
  split.
  - intros server self text limit tagger extra w Hl r.
    change (dictionary_matcher server self (Some text) limit tagger None
              extra w)
      with (dictionary_matcher server self (Some text) limit tagger
              (Some dm_default) extra w).
    rewrite dictionary_matcher_run by done. fold r.
    eexists _, _. split; [done|]. simpl. split.
    + by rewrite heap_get_insert.
    + by intros ->.
  - vm_compute. repeat split; reflexivity.
Qed.

(** ** The properties at concrete inputs *)

Lemma entities_empty_input_witness :
  ((None : option (dict query)) = None ∨ None = Some ([] : dict query))
  ∧ ∃ w' l,
      entities float_repr_integral no_index Entity_Linker_class None None
        limit_default taggers_default [] world0 = (w', inr l)
      ∧ heap_get l (heap w') = []
      ∧ sent w' = sent world0.
Proof.
  split; [by left|].
  apply (entities_empty_input float_repr_integral no_index
           Entity_Linker_class None limit_default taggers_default [] world0).
  by left.
Defined.

Lemma name_may_be_empty :
  fmap (M := list) (λ e : entity, e !! "name")
  <$> returned_entities
        (entities float_repr_integral index_empty_id Entity_Linker_class
           (Some queries_paris) None limit_default taggers_default []
           world0)
        (SStr "q0")
  = Some [Some (Atom (SStr ""))]
  ∧ fmap (M := list) (λ e : entity, e !! "name")
    <$> returned_entities
          (entities float_repr_integral index_name_field Entity_Linker_class
             None (Some "Paris") limit_default taggers_default ["name"]
             world0)
          (SStr "E1")
    = Some [Some (Atom (SStr "Lutetia"))]
  ∧ name_by_fallback rec_name_field = Some (Atom (SStr "Paris")).
Proof. vm_compute. repeat split; reflexivity. Qed.

Lemma name_fallback_order_witness :
  query_result float_repr_integral Entity_Linker_class "paris" rec_paris
  = inr entity_paris
  ∧ entity_paris !! "name" = name_by_fallback rec_paris
  ∧ (no_label_fields rec_paris →
     entity_paris !! "name" = rec_paris !! "id")
  ∧ (∀ i, rec_paris !! "id" = Some i → truthy i = true →
          ∃ v, entity_paris !! "name" = Some v ∧ truthy v = true).
Proof.
  assert (query_result float_repr_integral Entity_Linker_class "paris"
            rec_paris = inr entity_paris) as H.
  { vm_compute. reflexivity. }
  split; [exact H|].
  apply (name_fallback_order float_repr_integral Entity_Linker_class
           "paris" [] rec_paris entity_paris).
  left. exact H.
Defined.


Lemma match_may_be_overwritten :
  fmap (M := list) (λ e : entity, e !! "match")
  <$> returned_entities
        (dictionary_matcher index_match_field Entity_Linker_class
           (Some "Paris") limit_default tagger_default None ["match"]
           world0)
        (SStr "E1")
  = Some [Some (Atom (SBool false))].
Proof. vm_compute. reflexivity. Qed.

Lemma dictionary_matches_are_exact_witness :
  let out := dictionary_matcher index_by_turn Entity_Linker_class
               (Some "Paris") limit_default tagger_default None []
               world0 in
  ("match" ∉ ([] : list string))
  ∧ (default dm_default None < length (heap world0))%nat
  ∧ ∀ id (en : entry),
      dict_get id (heap_get (default dm_default None) (heap out.1)) = Some en →
      dict_get id (heap_get (default dm_default None) (heap world0)) = Some en
      ∨ ∃ e : entity, en = <["result" := [e]]> ∅
                      ∧ e !! "match" = Some (Atom (SBool true)).
Proof.
  intros out.
  assert ("match" ∉ ([] : list string)) as Hx by apply not_elem_of_nil.
  assert ((default dm_default None < length (heap world0))%nat) as Hl
    by (unfold dm_default; simpl; lia).
  split_and!; [exact Hx|exact Hl|].
  exact (dictionary_matches_are_exact index_by_turn Entity_Linker_class
           (Some "Paris") limit_default tagger_default None [] world0
           out.1 out.2 Hx Hl (surjective_pairing out)).
Defined.

Lemma tagger_failures_are_skipped_witness :
  let reqs := (λ tagger,
                 tagger_request Entity_Linker_class "Paris" limit_default
                   tagger []) <$> ["A"; "B"] in
  let replies := replies_from index_down_once (sent world0) reqs in
  ((None : option (dict query)) = None ∨ None = Some ([] : dict query))
  ∧ ∃ w' l,
      entities float_repr_integral index_down_once Entity_Linker_class None
        (Some "Paris") limit_default ["A"; "B"] [] world0 = (w', inr l)
      ∧ sent w' = sent world0 ++ reqs
      ∧ (∀ i tagger r msg,
           ["A"; "B"] !! i = Some tagger → replies !! i = Some r →
           r = Transport_error msg ∨ r = Decode_error msg →
           ("Exception using Solr Text Tagger " +:+ tagger +:+ ": " +:+ msg
            +:+ newline) ∈ stderr w'
           ∧ contribution [] r = [])
      ∧ heap_get l (heap w')
        = dict_update
            (concat (contribution []
                     <$> List.filter
                           (λ r, negb (is_transport_or_decode_error r))
                           replies)) [].
Proof.
  intros reqs replies. split; [by left|].
  apply (tagger_failures_are_skipped float_repr_integral index_down_once
           Entity_Linker_class None "Paris" limit_default ["A"; "B"] []
           world0).
  by left.
Defined.

Lemma taggers_accumulate_witness :
  let reqs := (λ tagger,
                 tagger_request Entity_Linker_class "Paris" limit_default
                   tagger []) <$> ["A"; "B"] in
  let writes := concat (contribution []
                        <$> replies_from index_by_turn (sent world0) reqs) in
  (Some ([] : dict query) = None ∨ Some [] = Some ([] : dict query))
  ∧ ∃ w' l,
      entities float_repr_integral index_by_turn Entity_Linker_class
        (Some []) (Some "Paris") limit_default ["A"; "B"] [] world0
      = (w', inr l)
      ∧ (∀ id, dict_get id (heap_get l (heap w')) = last_write id writes)
      ∧ (∀ id en, (id, en) ∈ writes →
                  is_Some (dict_get id (heap_get l (heap w'))))
      ∧ (∀ id (en : entry),
           dict_get id (heap_get l (heap w')) = Some en →
           ∃ (rec : doc) (id' : scalar) (e : entity),
             rec !! "id" = Some (Atom id') ∧ py_eqb id' id = true
             ∧ tagged_result [] rec = inr e
             ∧ en = <["result" := [e]]> ∅).
Proof.
  intros reqs writes. split; [by right|].
  apply (taggers_accumulate float_repr_integral index_by_turn
           Entity_Linker_class (Some []) "Paris" limit_default ["A"; "B"] []
           world0).
  by right.
Defined.

Lemma row_cap_per_query_witness :
  let q := <["limit" := Atom (SInt 3)]>
           (<["query" := Atom (SStr "paris")]> ∅) in
  let out := entities float_repr_integral index_paris Entity_Linker_class
               (Some queries_limit) None limit_default taggers_default []
               world0 in
  out = (out.1, inr 1%nat)
  ∧ dict_wf queries_limit
  ∧ queries_limit !! 0%nat = Some (SStr "q0", q)
  ∧ ∃ rq docs results,
      sent out.1 !! (length (sent world0) + 0)%nat = Some rq
      ∧ request_params rq !! "rows" = Some (row_cap q limit_default)
      ∧ (q !! "limit" = None → limit_default = limit_default →
         request_params rq !! "rows" = Some (Atom (SInt 10000)))
      ∧ index_paris
          (sent world0
           ++ take 0 (select_requests Entity_Linker_class limit_default
                        queries_limit)) rq
        = Solr_docs docs
      ∧ dict_get (SStr "q0") (heap_get 1%nat (heap out.1))
        = Some (<["result" := results]> ∅)
      ∧ length results = length docs.
Proof.
  intros q out.
  assert (out = (out.1, inr 1%nat)) as H.
  { vm_compute. reflexivity. }
  assert (dict_wf queries_limit) as Hwf by apply NoDup_singleton.
  split_and!; [exact H|exact Hwf|reflexivity|].
  exact (row_cap_per_query float_repr_integral index_paris
           Entity_Linker_class queries_limit None limit_default
           taggers_default [] world0 out.1 1%nat 0%nat (SStr "q0") q
           H Hwf eq_refl).
Defined.

Lemma query_failure_propagates_witness :
  let q := <["query" := Atom (SStr "paris")]> ∅ in
  let rq := select_request Entity_Linker_class q "paris" limit_default in
  query_entities float_repr_integral index_down Entity_Linker_class []
    limit_default world0 = (world1, inr 1%nat)
  ∧ query_string q = inr "paris"
  ∧ transport_or_decode_exception (index_down (sent world1) rq)
    = Some (RequestException "Connection refused")
  ∧ ∃ w2,
      entities float_repr_integral index_down Entity_Linker_class
        (Some ([] ++ (SStr "q0", q) :: [])) None limit_default
        taggers_default [] world0
      = (w2, inl (RequestException "Connection refused"))
      ∧ query_entities float_repr_integral index_down Entity_Linker_class
          ([] ++ (SStr "q0", q) :: []) limit_default world0
        = (w2, inl (RequestException "Connection refused"))
      ∧ sent w2 = sent world1 ++ [rq]
      ∧ heap w2 = heap world1
      ∧ stderr w2 = stderr world0.
Proof.
  intros q rq.
  assert (query_entities float_repr_integral index_down Entity_Linker_class
            [] limit_default world0 = (world1, inr 1%nat)) as H
    by reflexivity.
  assert (query_string q = inr "paris") as Hq by reflexivity.
  split_and!; [exact H|exact Hq|reflexivity|].
  exact (query_failure_propagates float_repr_integral index_down
           Entity_Linker_class [] (SStr "q0") q [] None limit_default
           taggers_default [] world0 world1 1%nat "paris"
           (RequestException "Connection refused") H Hq eq_refl).
Defined.



Lemma default_accumulator_is_shared_witness :
  let r := index_by_turn (sent world0)
             (tagger_request Entity_Linker_class "Paris" limit_default
                tagger_default []) in
  (dm_default < length (heap world0))%nat
  ∧ ∃ w' out,
      dictionary_matcher index_by_turn Entity_Linker_class (Some "Paris")
        limit_default tagger_default None [] world0 = (w', out)
      ∧ heap_get dm_default (heap w')
        = dict_update (contribution [] r) (heap_get dm_default (heap world0))
      ∧ (tagger_exception [] r = None → out = inr dm_default).
Proof.
  intros r.
  assert ((dm_default < length (heap world0))%nat) as Hl
    by (unfold dm_default; simpl; lia).
  split; [exact Hl|].
  exact (proj1 default_accumulator_is_shared index_by_turn
           Entity_Linker_class "Paris" limit_default tagger_default []
           world0 Hl).
Defined.

(** ** The examples of the specification, evaluated *)

(** A record with nothing but alternative labels takes the first of them,
    a record with a preferred label takes that, and a record without
    labels takes its id. *)
Example label_fallback_examples :
  normalized_label rec_E2 = inr (Atom (SStr "alt1"))
  ∧ normalized_label
      (<["skos_altLabel_ss" := Arr [SStr "alt1"]]> rec_E1)
    = inr (Atom (SStr "Paris"))
  ∧ normalized_label rec_no_score = inr (Atom (SStr "E3")).
Proof. vm_compute. repeat split; reflexivity. Qed.

(** The query "paris" matches the record labelled "Paris" and not the one
    labelled "Parris". *)
Example match_examples :
  fmap (M := list) (λ e : entity, e !! "match")
  <$> returned_entities out_paris (SStr "q0")
  = Some [Some (Atom (SBool true)); Some (Atom (SBool false))].
Proof. vm_compute. reflexivity. Qed.

(** Two taggers that tag E1 and E2 give a map with both; when the first
    tagger cannot be reached, the map has E2 alone and the error stream
    has one line. *)
Example tagger_examples :
  let run index :=
    entities float_repr_integral index Entity_Linker_class None
      (Some "Paris") limit_default ["A"; "B"] [] world0 in
  match run index_by_turn, run index_down_once with
  | (w, inr l), (w', inr l') =>
      dict_keys (heap_get l (heap w)) = [SStr "E1"; SStr "E2"]
      ∧ stderr w = []
      ∧ dict_keys (heap_get l' (heap w')) = [SStr "E2"]
      ∧ stderr w'
        = ["Exception using Solr Text Tagger A: Connection refused"
           +:+ newline]
  | _, _ => False
  end.
Proof. vm_compute. repeat split; reflexivity. Qed.


(** * Further properties of the code *)

(** ** Dictionaries that receive fresh keys *)

Lemma dict_get_None {V} k (d : dict V) :
  dict_get k d = None ↔ hkey_of k ∉ hkey_of <$> dict_keys d.
Proof.
  unfold dict_keys. induction d as [|[k' v] d IH]; simpl.
  - split; [intros _; apply not_elem_of_nil|done].
  - rewrite not_elem_of_cons, <- IH.
    destruct (py_eqb k' k) eqn:E.
    + apply py_eqb_true in E. split; [done|]. intros [? _]. congruence.
    + apply py_eqb_false in E. split; [|by intros [_ ?]].
      intros ?. split; [congruence|done].
Qed.

Lemma dict_set_fresh {V} k (v : V) (d : dict V) :
  dict_get k d = None → dict_set k v d = d ++ [(k, v)].
Proof.
  induction d as [|[k' v'] d IH]; simpl; [done|].
  destruct (py_eqb k' k); [done|]. intros H. by rewrite IH.
Qed.

Lemma dict_update_fresh {V} (ws d : dict V) :
  dict_wf (d ++ ws) → dict_update ws d = d ++ ws.
Proof.
  unfold dict_wf, dict_keys. revert d.
  induction ws as [|[k v] ws IH]; intros d Hwf; simpl.
  - by rewrite app_nil_r.
  - rewrite dict_set_fresh.
    + rewrite IH; rewrite <- (assoc_L (++)); done.
    + apply dict_get_None. unfold dict_keys.
      rewrite !fmap_app in Hwf. simpl in Hwf.
      apply list.NoDup_app in Hwf as (_ & Hnot & _).
      intros Hin. apply (Hnot _ Hin). apply list_elem_of_here.
Qed.

Lemma tagged_writes_app extra docs1 docs2 :
  tagging_failure extra docs1 = None →
  tagged_writes extra (docs1 ++ docs2)
  = tagged_writes extra docs1 ++ tagged_writes extra docs2
  ∧ tagging_failure extra (docs1 ++ docs2) = tagging_failure extra docs2.
Proof.
  induction docs1 as [|rec docs1 IH]; simpl; [done|].
  destruct (tag_write extra rec) as [e|[id res]]; [done|].
  intros H. destruct (IH H) as [-> ->]. done.
Qed.

Lemma collect_total {A B} (f : A → result B) (l : list A) :
  Forall (λ x, ∃ y, f x = inr y) l → ∃ ys, collect f l = inr ys.
Proof.
  induction 1 as [|x l [y Hy] _ [ys IH]]; simpl; [by eexists|].
  rewrite Hy, IH. simpl. by eexists.
Qed.

Section Further.

Variable float_repr : Qc → string.
Variable server : list request → request → reply.
Variable self : Entity_Linker.

(** ** One record, once more *)

Lemma query_result_inv q rec (e : entity) :
  query_result float_repr self q rec = inr e →
  ∃ label id score,
    normalized_label rec = inr label
    ∧ rec !! "id" = Some id ∧ rec !! "score" = Some score
    ∧ e = <["type" := types_of rec]>
          (<["match" := Atom (SBool (scan_fields float_repr self q rec))]>
           (<["score" := score]>
            (<["name" := label]>
             (<["id" := id]> ∅)))).
Proof.
  unfold query_result, getitem.
  destruct (normalized_label rec) as [|label]; simpl; [done|].
  destruct (rec !! "id") as [id|]; simpl; [|done].
  destruct (rec !! "score") as [score|]; simpl; [|done].
  intros [= <-]. by exists label, id, score.
Qed.

Lemma label_from_total field rec label :
  (∀ v, rec !! field = Some v → has_first_entry v) →
  ∃ label', label_from field rec label = inr label'.
Proof.
  intros H. unfold label_from. destruct (truthy label); [by eexists|].
  destruct (rec !! field) as [v|] eqn:E; [|by eexists].
  specialize (H v eq_refl).
  destruct v as [[| | | |[|c s]]|[|x l]]; simpl in *; try done; by eexists.
Qed.

Lemma query_result_total q rec :
  well_formed_record rec → ∃ e, query_result float_repr self q rec = inr e.
Proof.
  intros ([id Hid] & [score Hscore] & Hsets).
  unfold query_result, normalized_label.
  destruct (label_from_total "skos_prefLabel_ss" rec
              (match rec !! "preferred_label_s" with
               | Some v => v
               | None => Atom SNone
               end)) as [l1 ->].
  { intros v. apply Hsets. set_solver. }
  simpl.
  destruct (label_from_total "label_ss" rec l1) as [l2 ->].
  { intros v. apply Hsets. set_solver. }
  simpl.
  destruct (label_from_total "skos_altLabel_ss" rec l2) as [l3 ->].
  { intros v. apply Hsets. set_solver. }
  simpl. unfold getitem. rewrite Hid, Hscore.
  destruct (truthy l3); simpl; by eexists.
Qed.

Lemma has_query_string_ok q :
  has_query_string q → ∃ qs, query_string q = inr qs.
Proof.
  intros [qs H]. exists qs. unfold query_string, getitem. by rewrite H.
Qed.

(** ** Loops of queries, whatever their outcome *)

Lemma query_one_frame l limit kq (w w' : world) out :
  (l < length (heap w))%nat →
  query_one float_repr server self l limit kq w = (w', out) →
  (∃ s, heap w' = <[l := s]> (heap w)) ∧ stderr w' = stderr w.
Proof.
  intros Hl. destruct kq as [key q]. rewrite query_one_run by done.
  destruct (query_string q) as [e|qs]; simpl.
  { intros [= <- _]. split; [|done]. eexists. by rewrite heap_insert_get. }
  destruct (server (sent w) (select_request self q qs limit))
    as [msg|msg| |docs]; simpl.
  - intros [= <- _]. split; [|done]. eexists. simpl.
    by rewrite heap_insert_get.
  - intros [= <- _]. split; [|done]. eexists. simpl.
    by rewrite heap_insert_get.
  - intros [= <- _]. split; [by eexists|done].
  - destruct (collect _ docs); intros [= <- _]; (split; [by eexists|done]).
Qed.

Lemma query_loop_frame l limit queries (w w' : world) out :
  (l < length (heap w))%nat →
  for_each (query_one float_repr server self l limit) queries w = (w', out) →
  (∃ s, heap w' = <[l := s]> (heap w)) ∧ stderr w' = stderr w.
Proof.
  revert w. induction queries as [|kq queries IH]; intros w Hl.
  - simpl. intros [= <- _]. split; [|done]. eexists.
    by rewrite heap_insert_get.
  - cbn [for_each]. unfold bind at 1.
    destruct (query_one float_repr server self l limit kq w)
      as [w1 [e|[]]] eqn:E1;
      apply query_one_frame in E1 as [[s1 Hs1] He1]; try done.
    + intros [= <- _]. split; [by eexists|done].
    + intros Hrun. apply IH in Hrun as [[s Hs] He].
      * split; [|congruence]. exists s.
        by rewrite Hs, Hs1, list_insert_insert_eq.
      * by rewrite Hs1, length_insert.
Qed.

Lemma query_loop_total l limit queries (w : world) :
  (l < length (heap w))%nat →
  (∀ h rq, ∃ docs, server h rq = Solr_docs docs
                   ∧ Forall well_formed_record docs) →
  Forall (λ kq : scalar * query, has_query_string kq.2) queries →
  ∃ w', for_each (query_one float_repr server self l limit) queries w
        = (w', inr tt).
Proof.
  intros Hl Hserver Hq. revert w Hl.
  induction Hq as [|[key q] queries Hkq _ IH]; intros w Hl.
  - simpl. by eexists.
  - cbn [for_each]. unfold bind at 1. rewrite query_one_run by done.
    destruct (has_query_string_ok q Hkq) as [qs ->]. simpl.
    destruct (Hserver (sent w) (select_request self q qs limit))
      as (docs & -> & Hdocs).
    destruct (collect_total (query_result float_repr self qs) docs)
      as [results ->].
    { eapply list.Forall_impl; [exact Hdocs|]. intros rec.
      apply query_result_total. }
    apply IH. simpl. by rewrite length_insert.
Qed.

Lemma failure_lines_length extra taggers replies :
  length taggers = length replies →
  length (failure_lines float_repr extra taggers replies)
  = length (failing_replies extra replies).
Proof.
  revert replies.
  induction taggers as [|tagger taggers IH]; intros [|r replies]; simpl;
    try done.
  intros [= Hlen]. rewrite length_app, IH by done.
  unfold failing_replies. simpl.
  by destruct (tagger_exception extra r).
Qed.

Lemma replies_from_length h reqs :
  length (replies_from server h reqs) = length reqs.
Proof.
  revert h. induction reqs as [|rq reqs IH]; intros h; simpl; [done|].
  by rewrite IH.
Qed.

Lemma query_entities_returns_on_well_formed_input_aux queries limit
    (w : world) :
  (∀ h rq, ∃ docs, server h rq = Solr_docs docs
                   ∧ Forall well_formed_record docs) →
  Forall (λ kq : scalar * query, has_query_string kq.2) queries →
  ∃ w' l, query_entities float_repr server self queries limit w = (w', inr l).
Proof.
  intros Hserver Hq. rewrite query_entities_body.
  destruct (query_loop_total (length (heap w)) limit queries
              {| heap := heap w ++ [[]]; sent := sent w;
                 stderr := stderr w |}) as [w' ->]; try done.
  - simpl. rewrite length_app. simpl. lia.
  - by eexists _, _.
Qed.

(** ** The Query Resolver *)

(** X1: in a run of the Query Resolver that ends normally, every entity
    under a key carries the [id] and the [score] of its record as they
    are, has as [type] the [type_ss] of the record or an empty list when
    the record has none, and has the five keys [id], [name], [score],
    [match], [type] and no other. *)
Theorem query_results_carry_records queries text limit taggers extra
    (w w' : world) l i key q :
  entities float_repr server self (Some queries) text limit taggers extra w
  = (w', inr l) →
  dict_wf queries →
  queries !! i = Some (key, q) →
  ∃ qs docs results,
    query_string q = inr qs
    ∧ server (sent w ++ take i (select_requests self limit queries))
             (select_request self q qs limit) = Solr_docs docs
    ∧ dict_get key (heap_get l (heap w')) = Some (<["result" := results]> ∅)
    ∧ Forall2
        (λ rec (e : entity),
           e !! "id" = rec !! "id"
           ∧ e !! "score" = rec !! "score"
           ∧ e !! "type" = Some (default (Arr []) (rec !! "type_ss"))
           ∧ dom e = query_entity_keys)
        docs results.
Proof.
  intros Hrun Hwf Hi.
  assert (query_entities float_repr server self queries limit w = (w', inr l))
    as Hrun'.
  { destruct queries; [done|exact Hrun]. }
  destruct (query_entities_entry _ _ _ _ _ _ _ _ _ _ _ Hrun' Hwf Hi)
    as (qs & docs & results & Hq & Hs & Hc & Hd).
  exists qs, docs, results. split_and!; try done.
  apply collect_Forall2 in Hc. clear Hd Hs.
  induction Hc as [|rec e docs results He _ IH]; constructor; [|exact IH].
  apply query_result_inv in He
    as (label & id & score & _ & Hid & Hscore & ->).
  split_and!.
  - by simplify_map_eq.
  - by simplify_map_eq.
  - simplify_map_eq. unfold types_of. by destruct (rec !! "type_ss").
  - unfold query_entity_keys. rewrite !dom_insert_L, dom_empty_L.
    set_solver.
Qed.

(** X2: in a run of the Query Resolver that ends normally, the result map
    has exactly the keys of the queries, in their order; one request per
    query went out, in that order; and nothing was written to the error
    stream. *)
Theorem query_results_in_query_order queries limit (w w' : world) l :
  query_entities float_repr server self queries limit w = (w', inr l) →
  dict_wf queries →
  dict_keys (heap_get l (heap w')) = dict_keys queries
  ∧ sent w' = sent w ++ select_requests self limit queries
  ∧ length (select_requests self limit queries) = length queries
  ∧ stderr w' = stderr w.
Proof.
  intros Hrun Hwf.
  apply query_entities_ok in Hrun
    as (-> & writes & Hheap & Hsent & Herr & Hkeys & _).
  split_and!; try done.
  - rewrite Hheap. unfold heap_get.
    rewrite lookup_app_r, Nat.sub_diag by done. simpl.
    rewrite dict_update_fresh; [exact Hkeys|].
    unfold dict_wf, dict_keys in *. simpl. by rewrite Hkeys.
  - unfold select_requests. by rewrite length_fmap.
Qed.

(** X3: whatever its arguments and whether it returns or raises,
    [entities] leaves every result map that was there before the call as
    it was, the default accumulator of [dictionary_matcher] among them:
    the result maps after the call are those before it and the one map
    the call works on, which is the map it returns when it returns; and
    [query_entities] writes nothing to the error stream. *)
Theorem entities_keeps_existing_result_maps queries text limit taggers extra
    queries' (w : world) :
  let out := entities float_repr server self queries text limit taggers
               extra w in
  (∃ s, heap out.1 = heap w ++ [s])
  ∧ match out.2 with
    | inr l => l = length (heap w)
    | inl _ => True
    end
  ∧ stderr (query_entities float_repr server self queries' limit w).1
    = stderr w.
Proof.
  assert (∀ qs : dict query,
    let out := query_entities float_repr server self qs limit w in
    (∃ s, heap out.1 = heap w ++ [s])
    ∧ match out.2 with
      | inr l => l = length (heap w)
      | inl _ => True
      end
    ∧ stderr out.1 = stderr w) as Hq.
  { intros qs. simpl. rewrite query_entities_body.
    destruct (for_each _ qs _) as [w1 out] eqn:E.
    apply query_loop_frame in E as [[s Hs] He];
      [|simpl; rewrite length_app; simpl; lia].
    simpl in Hs, He.
    rewrite insert_app_r_alt, Nat.sub_diag in Hs by done. simpl in Hs.
    destruct out; simpl; (split_and!; [by exists s|done|done]). }
  simpl. split_and!; [| |apply (Hq queries')].
  - destruct queries as [[|kq queries]|].
    + destruct text as [text|].
      * rewrite entities_tagged by (by right). by eexists.
      * rewrite entities_no_queries, run_taggers_no_text by (by right).
        by eexists.
    + apply (Hq (kq :: queries)).
    + destruct text as [text|].
      * rewrite entities_tagged by (by left). by eexists.
      * rewrite entities_no_queries, run_taggers_no_text by (by left).
        by eexists.
  - destruct queries as [[|kq queries]|].
    + destruct text as [text|].
      * by rewrite entities_tagged by (by right).
      * by rewrite entities_no_queries, run_taggers_no_text by (by right).
    + apply (Hq (kq :: queries)).
    + destruct text as [text|].
      * by rewrite entities_tagged by (by left).
      * by rewrite entities_no_queries, run_taggers_no_text by (by left).
Qed.

(** X8: when every query has a string as its ['query'] and the index
    answers every request with records that have an id, a score and label
    sets that are not empty, [query_entities] returns normally. *)
Theorem query_entities_returns_on_well_formed_input queries limit
    (w : world) :
  (∀ h rq, ∃ docs, server h rq = Solr_docs docs
                   ∧ Forall well_formed_record docs) →
  Forall (λ kq : scalar * query, has_query_string kq.2) queries →
  ∃ w' l, query_entities float_repr server self queries limit w = (w', inr l).
Proof.
  intros Hserver Hq.
  by apply query_entities_returns_on_well_formed_input_aux.
Qed.

(** X9: when the queries before a key went well and the query of that key
    has no ['query'], [entities] raises [KeyError('query')] in the state
    it was in: no request went out for the key and nothing was written. *)
Theorem query_without_query_string_raises queries1 key q queries2 text limit
    taggers extra (w w1 : world) l :
  query_entities float_repr server self queries1 limit w = (w1, inr l) →
  q !! "query" = None →
  entities float_repr server self (Some (queries1 ++ (key, q) :: queries2))
    text limit taggers extra w
  = (w1, inl (KeyError (SStr "query"))).
Proof.
  intros Hpre Hq.
  eapply entities_query_raises; [exact Hpre|].
  rewrite query_one_run by (by eapply query_entities_valid).
  unfold query_string, getitem. by rewrite Hq.
Qed.

(** X10: when the queries before a key went well and the reply to the
    request of that key is JSON without a ['response'] (as the error
    replies of the index are), [entities] raises [KeyError('response')]
    after that one request, with nothing on the error stream. *)
Theorem solr_error_reply_raises_key_error queries1 key q queries2 text limit
    taggers extra (w w1 : world) l qs :
  query_entities float_repr server self queries1 limit w = (w1, inr l) →
  query_string q = inr qs →
  server (sent w1) (select_request self q qs limit) = Solr_error →
  ∃ w2,
    entities float_repr server self (Some (queries1 ++ (key, q) :: queries2))
      text limit taggers extra w
    = (w2, inl (KeyError (SStr "response")))
    ∧ sent w2 = sent w1 ++ [select_request self q qs limit]
    ∧ stderr w2 = stderr w.
Proof.
  intros Hpre Hq Hs.
  pose proof (query_entities_valid _ _ _ _ _ _ _ _ Hpre) as Hl.
  assert (stderr w1 = stderr w) as Herr.
  { by apply query_entities_ok in Hpre as (_ & _ & _ & _ & ? & _). }
  eexists. split.
  - eapply entities_query_raises; [exact Hpre|].
    rewrite query_one_run by done. rewrite Hq. simpl. by rewrite Hs.
  - done.
Qed.

(** X13: when every query has a string as its ['query'] and the index
    answers every request with no record, [query_entities] returns
    normally and every query has an entry with an empty result list. *)
Theorem no_hits_give_empty_results queries limit (w : world) :
  (∀ h rq, server h rq = Solr_docs []) →
  Forall (λ kq : scalar * query, has_query_string kq.2) queries →
  dict_wf queries →
  ∃ w' l,
    query_entities float_repr server self queries limit w = (w', inr l)
    ∧ ∀ i key q, queries !! i = Some (key, q) →
        dict_get key (heap_get l (heap w')) = Some (<["result" := []]> ∅).
Proof.
  intros Hserver Hq Hwf.
  destruct (query_entities_returns_on_well_formed_input_aux queries limit w)
    as (w' & l & Hrun); try done.
  { intros h rq. exists []. by rewrite Hserver. }
  exists w', l. split; [done|]. intros i key q Hi.
  destruct (query_entities_entry _ _ _ _ _ _ _ _ _ _ _ Hrun Hwf Hi)
    as (qs & docs & results & _ & Hs & Hc & Hd).
  rewrite Hserver in Hs. injection Hs as <-. simpl in Hc.
  by simplify_eq.
Qed.

(** X7: the [match] of an entity depends on the query string only through
    its lower-casing, and on the record only through the fields of
    [self.fields] other than [score]: two records that agree on those
    fields get the same flag for two queries that are equal up to case. *)
Theorem match_ignores_case_and_other_fields q q' rec rec' (e e' : entity) :
  query_result float_repr self q rec = inr e →
  query_result float_repr self q' rec' = inr e' →
  lower q = lower q' →
  (∀ field, field ∈ fields self → field ≠ "score" →
            rec !! field = rec' !! field) →
  e !! "match" = e' !! "match".
Proof.
  intros He He' Hq Hfields.
  rewrite (query_result_match _ _ _ _ _ He), (query_result_match _ _ _ _ _ He').
  do 3 f_equal. apply eq_true_iff_eq.
  rewrite !scan_fields_true. unfold some_field_equals, equals_ignoring_case.
  split; intros (field & values & v & Hin & Hs & Hv & Hvs & Heq);
    exists field, values, v; split_and!; try done.
  - by rewrite <- Hfields.
  - congruence.
  - by rewrite Hfields.
  - congruence.
Qed.

(** ** The Dictionary Matcher *)

(** X6: the entity of a tagged record has every requested extra field the
    record has, with the value of the record, and no field besides [id],
    [name], [match], [type] and the requested ones, so no [score] unless
    it was requested; its [id] is the one of the record, and its [type],
    unless [type] was requested, is the [type_ss] of the record or an
    empty list. *)
Theorem tagged_entity_fields extra rec (e : entity) :
  tagged_result extra rec = inr e →
  (∀ field v, field ∈ extra → rec !! field = Some v → e !! field = Some v)
  ∧ (∀ field, field ∉ extra → field ∉ tagged_entity_keys →
              e !! field = None)
  ∧ ("score" ∉ extra → e !! "score" = None)
  ∧ e !! "id" = rec !! "id"
  ∧ ("type" ∉ extra →
     e !! "type" = Some (default (Arr []) (rec !! "type_ss"))).
Proof.
  unfold tagged_result, getitem.
  destruct (normalized_label rec) as [|label]; simpl; [done|].
  destruct (rec !! "id") as [id|] eqn:Hid; simpl; [|done].
  intros [= <-].
  assert (∀ field, field ∉ extra → field ∉ tagged_entity_keys →
            copy_fields extra rec
              (<["type" := types_of rec]>
               (<["match" := Atom (SBool true)]>
                (<["name" := label]> (<["id" := id]> ∅)))) !! field = None)
    as Hnone.
  { intros field Hx Hk. rewrite copy_fields_keep by (by left).
    unfold tagged_entity_keys in Hk.
    rewrite !not_elem_of_cons in Hk. destruct Hk as (? & ? & ? & ? & _).
    by simplify_map_eq. }
  split_and!.
  - intros field v Hin Hv. rewrite copy_fields_lookup.
    by rewrite bool_decide_eq_true_2, Hv.
  - exact Hnone.
  - intros Hx. apply Hnone; [done|]. unfold tagged_entity_keys.
    rewrite !not_elem_of_cons. split_and!; try done. apply not_elem_of_nil.
  - rewrite copy_fields_lookup. case_bool_decide.
    + by rewrite Hid.
    + by simplify_map_eq.
  - intros Hx. rewrite copy_fields_keep by (by left). simplify_map_eq.
    unfold types_of. by destruct (rec !! "type_ss").
Qed.

(** X4: when a record in the middle of a reply raises, the call of
    [dictionary_matcher] raises that exception, but the entries of the
    records before it stay in the accumulator: what was written is not
    undone, and the records after it are not looked at. *)
Theorem tagger_failure_keeps_earlier_records text limit tagger l extra
    (w : world) docs1 bad docs2 e :
  (l < length (heap w))%nat →
  server (sent w) (tagger_request self text limit tagger extra)
  = Solr_docs (docs1 ++ bad :: docs2) →
  tagging_failure extra docs1 = None →
  tag_write extra bad = inl e →
  ∃ w',
    dictionary_matcher server self (Some text) limit tagger (Some l) extra w
    = (w', inl e)
    ∧ heap_get l (heap w')
      = dict_update (tagged_writes extra docs1) (heap_get l (heap w))
    ∧ length (tagged_writes extra docs1) = length docs1.
Proof.
  intros Hl Hs Hok Hbad. rewrite dictionary_matcher_run by done.
  rewrite Hs. simpl.
  destruct (tagged_writes_app extra docs1 (bad :: docs2) Hok) as [-> ->].
  simpl. rewrite Hbad, app_nil_r.
  eexists. split; [done|]. simpl. split; [by rewrite heap_get_insert|].
  clear Hs. induction docs1 as [|rec docs1 IH]; simpl in *; [done|].
  destruct (tag_write extra rec) as [|[id res]]; [done|].
  simpl. by rewrite IH.
Qed.

(** X5: a call of [dictionary_matcher] keeps in the accumulator the entry
    of every id that none of its records writes. *)
Theorem accumulator_entries_preserved text limit tagger l extra (w : world)
    id :
  (l < length (heap w))%nat →
  (∀ id' en,
     (id', en) ∈ contribution extra
                   (server (sent w)
                      (tagger_request self text limit tagger extra)) →
     py_eqb id' id = false) →
  dict_get id
    (heap_get l
       (heap (dictionary_matcher server self (Some text) limit tagger
                (Some l) extra w).1))
  = dict_get id (heap_get l (heap w)).
Proof.
  intros Hl Hnot. rewrite dictionary_matcher_run by done. simpl.
  rewrite heap_get_insert, dict_get_update by done.
  destruct (last_write id _) as [en|] eqn:E; [|done].
  apply last_write_elem in E as (id' & Hin & Heq).
  by rewrite (Hnot _ _ Hin) in Heq.
Qed.

(** X11: in a run of [entities] over the taggers, the error stream gets
    the line of every tagger whose run raised, for whatever reason (the
    transport, the decoding, a reply without records, a record that cannot
    be resolved), and exactly as many lines as there were such taggers;
    in particular nothing when none raised. *)
Theorem every_failing_tagger_is_reported_once queries text limit taggers
    extra (w : world) :
  queries = None ∨ queries = Some [] →
  let reqs := (λ tagger, tagger_request self text limit tagger extra)
              <$> taggers in
  let replies := replies_from server (sent w) reqs in
  ∃ w' l,
    entities float_repr server self queries (Some text) limit taggers extra w
    = (w', inr l)
    ∧ (∀ i tagger r e,
         taggers !! i = Some tagger → replies !! i = Some r →
         tagger_exception extra r = Some e →
         tagger_failure float_repr tagger e ∈ stderr w')
    ∧ length (stderr w')
      = (length (stderr w) + length (failing_replies extra replies))%nat
    ∧ (failing_replies extra replies = [] → stderr w' = stderr w).
Proof.
  intros Hq reqs replies. rewrite entities_tagged by done.
  eexists _, _. split; [done|]. simpl.
  assert (length (failure_lines float_repr extra taggers replies)
          = length (failing_replies extra replies)) as Hlen.
  { apply failure_lines_length. unfold replies, reqs.
    by rewrite replies_from_length, length_fmap. }
  subst replies reqs.
  split_and!.
  - intros i tagger r e Ht Hr He. apply elem_of_app. right.
    by eapply failure_lines_elem.
  - by rewrite length_app, Hlen.
  - intros Hnone. rewrite Hnone in Hlen. simpl in Hlen.
    apply nil_length_inv in Hlen. by rewrite Hlen, app_nil_r.
Qed.

(** X12: without queries and without text, every tagger of the list is
    reported on the error stream with the [AttributeError] of
    [text.encode], one line per tagger in their order, and no request is
    issued. *)
Theorem no_text_reports_every_tagger queries limit taggers extra
    (w : world) :
  queries = None ∨ queries = Some [] →
  ∃ w' l,
    entities float_repr server self queries None limit taggers extra w
    = (w', inr l)
    ∧ stderr w'
      = stderr w
        ++ ((λ tagger,
               "Exception using Solr Text Tagger " +:+ tagger
               +:+ ": 'NoneType' object has no attribute 'encode'"
               +:+ newline) <$> taggers)
    ∧ sent w' = sent w.
Proof.
  intros Hq. rewrite entities_no_queries, run_taggers_no_text by done.
  eexists _, _. split; [done|]. simpl. split; reflexivity.
Qed.

(** X14: the map that [entities] returns from the dictionary path does not
    depend on what the heap holds, so not on what earlier calls of
    [dictionary_matcher] left in the default accumulator: two calls with
    the same arguments in states with the same requests behind them
    return maps with the same content. *)
Theorem entities_ignores_default_accumulator queries text limit taggers
    extra (w1 w2 : world) :
  queries = None ∨ queries = Some [] →
  sent w1 = sent w2 →
  ∃ w1' l1 w2' l2,
    entities float_repr server self queries text limit taggers extra w1
    = (w1', inr l1)
    ∧ entities float_repr server self queries text limit taggers extra w2
      = (w2', inr l2)
    ∧ heap_get l1 (heap w1') = heap_get l2 (heap w2').
Proof.
  intros Hq Hsent. destruct text as [text|].
  - rewrite !entities_tagged by done.
    eexists _, _, _, _. split_and!; try done. simpl.
    unfold heap_get. rewrite !lookup_app_r, !Nat.sub_diag by done. simpl.
    by rewrite Hsent.
  - rewrite !entities_no_queries, !run_taggers_no_text by done.
    eexists _, _, _, _. split_and!; try done. simpl.
    by rewrite !heap_get_fresh.
Qed.

Lemma utf8_encode_ascii text : is_ascii_text text → utf8_encode text = text.
Proof.
  induction text as [|c text IH]; simpl; [done|]. intros [Hc Htext].
  unfold utf8_char. apply N.ltb_lt in Hc. rewrite Hc. simpl.
  by rewrite IH.
Qed.

(** X15: a call of [dictionary_matcher] with a text of characters below
    128 issues one request, a POST of the UTF-8 bytes of the text to the
    handler of the tagger under the core, whose [fl] is the six base
    fields followed by the requested extra fields, joined with commas,
    and whose [tagsLimit] is the limit as a string, or is absent when the
    limit is 0. *)
Theorem tagger_request_shape text limit tagger l extra (w : world) :
  is_ascii_text text →
  (l < length (heap w))%nat →
  ∃ params,
    sent (dictionary_matcher server self (Some text) limit tagger (Some l)
            extra w).1
    = sent w ++ [Post (solr self +:+ solr_core self +:+ "/" +:+ tagger)
                   (utf8_encode text) params]
    ∧ params !! "tagsLimit"
      = (if bool_decide (limit = 0) then None
         else Some (Atom (SStr (pretty limit))))
    ∧ params !! "fl"
      = Some (Atom (SStr (String.concat ","
                            (["id"; "type_ss"; "preferred_label_s";
                              "skos_prefLabel_ss"; "label_ss";
                              "skos_altLabel_ss"] ++ extra))))
    ∧ params !! "overlaps" = Some (Atom (SStr "NO_SUB"))
    ∧ params !! "matchText" = Some (Atom (SStr "true")).
Proof.
  intros Htext Hl. rewrite dictionary_matcher_run by done. simpl.
  rewrite (utf8_encode_ascii text Htext).
  exists (tagger_params limit extra). split; [done|].
  unfold tagger_params, tagger_fields. simpl.
  case_bool_decide as Hz.
  - subst limit. simpl. split_and!; by simplify_map_eq.
  - assert ((limit =? 0) = false) as -> by by apply Z.eqb_neq.
    simpl. split_and!; by simplify_map_eq.
Qed.

End Further.

(** ** The further properties at concrete inputs *)

Lemma query_results_carry_records_witness :
  let q := <["query" := Atom (SStr "paris")]> ∅ in
  out_paris = (out_paris.1, inr 1%nat)
  ∧ dict_wf queries_paris
  ∧ queries_paris !! 0%nat = Some (SStr "q0", q)
  ∧ ∃ qs docs results,
      query_string q = inr qs
      ∧ index_paris
          (sent world0
           ++ take 0 (select_requests Entity_Linker_class limit_default
                        queries_paris))
          (select_request Entity_Linker_class q qs limit_default)
        = Solr_docs docs
      ∧ dict_get (SStr "q0") (heap_get 1%nat (heap out_paris.1))
        = Some (<["result" := results]> ∅)
      ∧ Forall2
          (λ rec (e : entity),
             e !! "id" = rec !! "id"
             ∧ e !! "score" = rec !! "score"
             ∧ e !! "type" = Some (default (Arr []) (rec !! "type_ss"))
             ∧ dom e = query_entity_keys)
          docs results.
Proof.
  intros q.
  assert (out_paris = (out_paris.1, inr 1%nat)) as H.
  { vm_compute. reflexivity. }
  assert (dict_wf queries_paris) as Hwf by apply NoDup_singleton.
  split_and!; [exact H|exact Hwf|reflexivity|].
  exact (query_results_carry_records float_repr_integral index_paris
           Entity_Linker_class queries_paris None limit_default
           taggers_default [] world0 out_paris.1 1%nat 0%nat (SStr "q0") q
           H Hwf eq_refl).
Defined.

Lemma query_results_in_query_order_witness :
  let out := query_entities float_repr_integral index_paris
               Entity_Linker_class queries_paris limit_default world0 in
  out = (out.1, inr 1%nat)
  ∧ dict_wf queries_paris
  ∧ dict_keys (heap_get 1%nat (heap out.1)) = dict_keys queries_paris
  ∧ sent out.1
    = sent world0
      ++ select_requests Entity_Linker_class limit_default queries_paris
  ∧ length (select_requests Entity_Linker_class limit_default queries_paris)
    = length queries_paris
  ∧ stderr out.1 = stderr world0.
Proof.
  intros out.
  assert (out = (out.1, inr 1%nat)) as H.
  { vm_compute. reflexivity. }
  assert (dict_wf queries_paris) as Hwf by apply NoDup_singleton.
  split_and!; [exact H|exact Hwf|..];
    apply (query_results_in_query_order float_repr_integral index_paris
             Entity_Linker_class queries_paris limit_default world0 out.1
             1%nat H Hwf).
Defined.

Lemma index_paris_well_formed :
  ∀ (h : list request) (rq : request),
    ∃ docs, index_paris h rq = Solr_docs docs
            ∧ Forall well_formed_record docs.
Proof.
  intros h rq. exists [rec_paris; rec_parris]. split; [reflexivity|].
  repeat constructor; try (by eexists);
    intros field v Hf Hv;
    repeat (apply elem_of_cons in Hf as [->|Hf]);
    try (by apply elem_of_nil in Hf);
    vm_compute in Hv; by simplify_eq.
Defined.

Lemma queries_paris_have_strings :
  Forall (λ kq : scalar * query, has_query_string kq.2) queries_paris.
Proof. repeat constructor. by exists "paris". Defined.

Lemma query_entities_returns_on_well_formed_input_witness :
  ∃ w' l,
    query_entities float_repr_integral index_paris Entity_Linker_class
      queries_paris limit_default world0 = (w', inr l).
Proof.
  exact (query_entities_returns_on_well_formed_input float_repr_integral
           index_paris Entity_Linker_class queries_paris limit_default
           world0 index_paris_well_formed queries_paris_have_strings).
Defined.

Lemma query_without_query_string_raises_witness :
  query_entities float_repr_integral no_index Entity_Linker_class []
    limit_default world0 = (world1, inr 1%nat)
  ∧ (∅ : query) !! "query" = None
  ∧ entities float_repr_integral no_index Entity_Linker_class
      (Some ([] ++ (SStr "q0", ∅) :: [])) None limit_default
      taggers_default [] world0
    = (world1, inl (KeyError (SStr "query"))).
Proof.
  assert (query_entities float_repr_integral no_index Entity_Linker_class
            [] limit_default world0 = (world1, inr 1%nat)) as H
    by reflexivity.
  split_and!; [exact H|reflexivity|].
  exact (query_without_query_string_raises float_repr_integral no_index
           Entity_Linker_class [] (SStr "q0") ∅ [] None limit_default
           taggers_default [] world0 world1 1%nat H eq_refl).
Defined.

Lemma solr_error_reply_raises_key_error_witness :
  let q := <["query" := Atom (SStr "paris")]> ∅ in
  let rq := select_request Entity_Linker_class q "paris" limit_default in
  query_entities float_repr_integral no_index Entity_Linker_class []
    limit_default world0 = (world1, inr 1%nat)
  ∧ query_string q = inr "paris"
  ∧ no_index (sent world1) rq = Solr_error
  ∧ ∃ w2,
      entities float_repr_integral no_index Entity_Linker_class
        (Some ([] ++ (SStr "q0", q) :: [])) None limit_default
        taggers_default [] world0
      = (w2, inl (KeyError (SStr "response")))
      ∧ sent w2 = sent world1 ++ [rq]
      ∧ stderr w2 = stderr world0.
Proof.
  intros q rq.
  assert (query_entities float_repr_integral no_index Entity_Linker_class
            [] limit_default world0 = (world1, inr 1%nat)) as H
    by reflexivity.
  assert (query_string q = inr "paris") as Hq by reflexivity.
  split_and!; [exact H|exact Hq|reflexivity|].
  exact (solr_error_reply_raises_key_error float_repr_integral no_index
           Entity_Linker_class [] (SStr "q0") q [] None limit_default
           taggers_default [] world0 world1 1%nat "paris" H Hq eq_refl).
Defined.

Lemma no_hits_give_empty_results_witness :
  (∀ h rq, index_no_hits h rq = Solr_docs [])
  ∧ dict_wf queries_paris
  ∧ ∃ w' l,
      query_entities float_repr_integral index_no_hits Entity_Linker_class
        queries_paris limit_default world0 = (w', inr l)
      ∧ ∀ i key q, queries_paris !! i = Some (key, q) →
          dict_get key (heap_get l (heap w')) = Some (<["result" := []]> ∅).
Proof.
  assert (∀ h rq, index_no_hits h rq = Solr_docs []) as Hs by reflexivity.
  assert (dict_wf queries_paris) as Hwf by apply NoDup_singleton.
  split_and!; [exact Hs|exact Hwf|].
  exact (no_hits_give_empty_results float_repr_integral index_no_hits
           Entity_Linker_class queries_paris limit_default world0 Hs
           queries_paris_have_strings Hwf).
Defined.

Lemma match_ignores_case_and_other_fields_witness :
  query_result float_repr_integral Entity_Linker_class "paris" rec_paris
  = inr entity_paris
  ∧ query_result float_repr_integral Entity_Linker_class "PARIS"
      rec_paris_rescored
    = inr entity_paris_rescored
  ∧ lower "paris" = lower "PARIS"
  ∧ entity_paris !! "match" = entity_paris_rescored !! "match".
Proof.
  assert (query_result float_repr_integral Entity_Linker_class "paris"
            rec_paris = inr entity_paris) as H.
  { vm_compute. reflexivity. }
  assert (query_result float_repr_integral Entity_Linker_class "PARIS"
            rec_paris_rescored = inr entity_paris_rescored) as H'.
  { vm_compute. reflexivity. }
  assert (lower "paris" = lower "PARIS") as Hq by reflexivity.
  split_and!; [exact H|exact H'|exact Hq|].
  apply (match_ignores_case_and_other_fields float_repr_integral
           Entity_Linker_class "paris" "PARIS" rec_paris rec_paris_rescored
           entity_paris entity_paris_rescored H H' Hq).
  intros field Hf Hs.
  repeat (apply elem_of_cons in Hf as [->|Hf]);
    try (by apply elem_of_nil in Hf); try done; vm_compute; reflexivity.
Defined.

Lemma tagged_entity_fields_witness :
  tagged_result ["population"] rec_typed = inr entity_typed
  ∧ (∀ field v, field ∈ ["population"] → rec_typed !! field = Some v →
                entity_typed !! field = Some v)
  ∧ (∀ field, field ∉ ["population"] → field ∉ tagged_entity_keys →
              entity_typed !! field = None)
  ∧ ("score" ∉ ["population"] → entity_typed !! "score" = None)
  ∧ entity_typed !! "id" = rec_typed !! "id"
  ∧ ("type" ∉ ["population"] →
     entity_typed !! "type" = Some (default (Arr []) (rec_typed !! "type_ss"))).
Proof.
  assert (tagged_result ["population"] rec_typed = inr entity_typed) as H.
  { vm_compute. reflexivity. }
  split; [exact H|].
  exact (tagged_entity_fields ["population"] rec_typed entity_typed H).
Defined.

Lemma tagger_failure_keeps_earlier_records_witness :
  (dm_default < length (heap world0))%nat
  ∧ index_bad_middle (sent world0)
      (tagger_request Entity_Linker_class "Paris" limit_default
         tagger_default [])
    = Solr_docs ([rec_E1] ++ rec_no_id :: [rec_E2])
  ∧ tagging_failure [] [rec_E1] = None
  ∧ tag_write [] rec_no_id = inl (KeyError (SStr "id"))
  ∧ ∃ w',
      dictionary_matcher index_bad_middle Entity_Linker_class (Some "Paris")
        limit_default tagger_default (Some dm_default) [] world0
      = (w', inl (KeyError (SStr "id")))
      ∧ heap_get dm_default (heap w')
        = dict_update (tagged_writes [] [rec_E1])
            (heap_get dm_default (heap world0))
      ∧ length (tagged_writes [] [rec_E1]) = length [rec_E1].
Proof.
  assert ((dm_default < length (heap world0))%nat) as Hl
    by (unfold dm_default; simpl; lia).
  assert (tagging_failure [] [rec_E1] = None) as Hok.
  { vm_compute. reflexivity. }
  assert (tag_write [] rec_no_id = inl (KeyError (SStr "id"))) as Hbad.
  { vm_compute. reflexivity. }
  split_and!; [exact Hl|reflexivity|exact Hok|exact Hbad|].
  exact (tagger_failure_keeps_earlier_records index_bad_middle
           Entity_Linker_class "Paris" limit_default tagger_default
           dm_default [] world0 [rec_E1] rec_no_id [rec_E2]
           (KeyError (SStr "id")) Hl eq_refl Hok Hbad).
Defined.

Lemma accumulator_entries_preserved_witness :
  (dm_default < length (heap world_used))%nat
  ∧ dict_get (SStr "E9")
      (heap_get dm_default
         (heap (dictionary_matcher index_by_turn Entity_Linker_class
                  (Some "Paris") limit_default tagger_default
                  (Some dm_default) [] world_used).1))
    = dict_get (SStr "E9") (heap_get dm_default (heap world_used)).
Proof.
  assert ((dm_default < length (heap world_used))%nat) as Hl
    by (unfold dm_default; simpl; lia).
  split; [exact Hl|].
  apply (accumulator_entries_preserved index_by_turn Entity_Linker_class
           "Paris" limit_default tagger_default dm_default [] world_used
           (SStr "E9") Hl).
  intros id' en Hin. vm_compute in Hin.
  apply list_elem_of_singleton in Hin. injection Hin as -> _.
  reflexivity.
Defined.

Lemma every_failing_tagger_is_reported_once_witness :
  let reqs := (λ tagger,
                 tagger_request Entity_Linker_class "Paris" limit_default
                   tagger []) <$> ["A"; "B"] in
  let replies := replies_from index_down_once (sent world0) reqs in
  ((None : option (dict query)) = None ∨ None = Some ([] : dict query))
  ∧ ∃ w' l,
      entities float_repr_integral index_down_once Entity_Linker_class None
        (Some "Paris") limit_default ["A"; "B"] [] world0 = (w', inr l)
      ∧ (∀ i tagger r e,
           ["A"; "B"] !! i = Some tagger → replies !! i = Some r →
           tagger_exception [] r = Some e →
           tagger_failure float_repr_integral tagger e ∈ stderr w')
      ∧ length (stderr w')
        = (length (stderr world0) + length (failing_replies [] replies))%nat
      ∧ (failing_replies [] replies = [] → stderr w' = stderr world0).
Proof.
  intros reqs replies. split; [by left|].
  apply (every_failing_tagger_is_reported_once float_repr_integral
           index_down_once Entity_Linker_class None "Paris" limit_default
           ["A"; "B"] [] world0).
  by left.
Defined.

Lemma no_text_reports_every_tagger_witness :
  ((None : option (dict query)) = None ∨ None = Some ([] : dict query))
  ∧ ∃ w' l,
      entities float_repr_integral no_index Entity_Linker_class None None
        limit_default ["A"; "B"] [] world0 = (w', inr l)
      ∧ stderr w'
        = stderr world0
          ++ ((λ tagger,
                 "Exception using Solr Text Tagger " +:+ tagger
                 +:+ ": 'NoneType' object has no attribute 'encode'"
                 +:+ newline) <$> ["A"; "B"])
      ∧ sent w' = sent world0.
Proof.
  split; [by left|].
  apply (no_text_reports_every_tagger float_repr_integral no_index
           Entity_Linker_class None limit_default ["A"; "B"] [] world0).
  by left.
Defined.

Lemma entities_ignores_default_accumulator_witness :
  ((None : option (dict query)) = None ∨ None = Some ([] : dict query))
  ∧ sent world0 = sent world_used
  ∧ ∃ w1' l1 w2' l2,
      entities float_repr_integral index_by_turn Entity_Linker_class None
        (Some "Paris") limit_default ["A"; "B"] [] world0 = (w1', inr l1)
      ∧ entities float_repr_integral index_by_turn Entity_Linker_class None
          (Some "Paris") limit_default ["A"; "B"] [] world_used
        = (w2', inr l2)
      ∧ heap_get l1 (heap w1') = heap_get l2 (heap w2').
Proof.
  split; [by left|]. split; [reflexivity|].
  apply (entities_ignores_default_accumulator float_repr_integral
           index_by_turn Entity_Linker_class None (Some "Paris")
           limit_default ["A"; "B"] [] world0 world_used);
    [by left|reflexivity].
Defined.

Lemma tagger_request_shape_witness :
  is_ascii_text "Paris"
  ∧ (dm_default < length (heap world0))%nat
  ∧ ∃ params,
      sent (dictionary_matcher index_by_turn Entity_Linker_class
              (Some "Paris") 0 tagger_default (Some dm_default)
              ["population"] world0).1
      = sent world0
        ++ [Post (solr Entity_Linker_class +:+ solr_core Entity_Linker_class
                  +:+ "/" +:+ tagger_default) (utf8_encode "Paris") params]
      ∧ params !! "tagsLimit"
        = (if bool_decide (0 = 0) then None
           else Some (Atom (SStr (pretty 0))))
      ∧ params !! "fl"
        = Some (Atom (SStr (String.concat ","
                              (["id"; "type_ss"; "preferred_label_s";
                                "skos_prefLabel_ss"; "label_ss";
                                "skos_altLabel_ss"] ++ ["population"]))))
      ∧ params !! "overlaps" = Some (Atom (SStr "NO_SUB"))
      ∧ params !! "matchText" = Some (Atom (SStr "true")).
Proof.
  assert (is_ascii_text "Paris") as Htext.
  { simpl. repeat split; reflexivity. }
  assert ((dm_default < length (heap world0))%nat) as Hl
    by (unfold dm_default; simpl; lia).
  split; [exact Htext|]. split; [exact Hl|].
  exact (tagger_request_shape index_by_turn Entity_Linker_class "Paris" 0
           tagger_default dm_default ["population"] world0 Htext Hl).
Defined.
